(** * Variant composition and value resolution of [src/util/pluginUtils.js]

    A shallow embedding of the selector rewriting helpers, the rule
    transform pipeline and the value-modifier resolvers, with the
    properties the prose specification states about them.

    JavaScript strings are [string]s (sequences of code units), indices are
    [Z] so that the [-1] of [indexOf] and the negative arguments of [slice]
    keep their meaning, [undefined] is [None], and theme tables are plain
    objects: finite maps from their own keys to values, behind which stand
    the members every object inherits from [Object.prototype]. *)

From Stdlib Require Import ZArith Ascii String.
From Stdlib Require DecimalString.
From stdpp Require Import base option list gmap strings.

Set Warnings "-register-all".
Local Open Scope Z_scope.

(** ** JavaScript string primitives *)

Module JsString.

Definition len (s : string) : Z := Z.of_nat (String.length s).

(** Relative index resolution shared by [slice]'s two arguments: a negative
    index counts from the end, and everything is clamped to [0 .. len]. *)
Definition clampIndex (n k : Z) : Z :=
  if k <? 0 then Z.max (n + k) 0 else Z.min k n.

(** [s.slice(start, stop)] *)
Definition slice (s : string) (start stop : Z) : string :=
  let from := clampIndex (len s) start in
  let to := clampIndex (len s) stop in
  String.substring (Z.to_nat from) (Z.to_nat (to - from)) s.

(** [s.slice(start)] *)
Definition sliceFrom (s : string) (start : Z) : string :=
  slice s start (len s).

Fixpoint drop (n : nat) (s : string) : string :=
  match n, s with
  | O, _ => s
  | S _, EmptyString => EmptyString
  | S n', String _ s' => drop n' s'
  end.

(** First position [>= i] at which [pat] starts, scanning [s] whose first
    character sits at position [i]; [-1] when there is none. *)
Fixpoint scan (pat s : string) (i : Z) : Z :=
  if String.prefix pat s then i
  else match s with
       | EmptyString => -1
       | String _ s' => scan pat s' (i + 1)
       end.

(** [s.indexOf(pat, from)] *)
Definition indexOf (s pat : string) (from : Z) : Z :=
  let k := Z.min (Z.max from 0) (len s) in
  scan pat (drop (Z.to_nat k) s) k.

(** [s.includes(pat)] *)
Definition includes (s pat : string) : bool :=
  negb (indexOf s pat 0 =? -1).

(** Position of the last occurrence of the character [c] in [s], where the
    first character of [s] sits at position [i]; [-1] when there is none. *)
Fixpoint scanLast (c : ascii) (s : string) (i : Z) : Z :=
  match s with
  | EmptyString => -1
  | String d s' =>
      let later := scanLast c s' (i + 1) in
      if later =? -1 then (if Ascii.eqb d c then i else -1) else later
  end.

(** [s.lastIndexOf(c)] for a one-character pattern *)
Definition lastIndexOf (s : string) (c : ascii) : Z := scanLast c s 0.

(** [s.replace(pat, repl)] with a string pattern: only the first occurrence
    is replaced. *)
Definition replace (s pat repl : string) : string :=
  let i := indexOf s pat 0 in
  if i =? -1 then s
  else slice s 0 i +:+ repl +:+ sliceFrom s (i + len pat).

(** [s.split(c)] for a one-character separator; the pieces are collected
    with the piece being read in [cur]. *)
Fixpoint splitAcc (c : ascii) (s cur : string) : list string :=
  match s with
  | EmptyString => [cur]
  | String d s' =>
      if Ascii.eqb d c then cur :: splitAcc c s' EmptyString
      else splitAcc c s' (cur +:+ String d EmptyString)
  end.

Definition split (s : string) (c : ascii) : list string :=
  splitAcc c s EmptyString.

(** [parts.join(sep)] *)
Definition join (parts : list string) (sep : string) : string :=
  String.concat sep parts.

(** [s.startsWith(p)] and [s.endsWith(p)] *)
Definition startsWith (s p : string) : bool := String.prefix p s.

Definition endsWith (s p : string) : bool :=
  (String.length p <=? String.length s)%nat
  && bool_decide (drop (String.length s - String.length p) s = p).

(** The character [c] occurs in [s]. *)
Fixpoint occurs (c : ascii) (s : string) : bool :=
  match s with
  | EmptyString => false
  | String d s' => Ascii.eqb d c || occurs c s'
  end.

End JsString.

Import JsString.

(** ** Selector rewriting: marker state merging *)

(** [applyPseudoToMarker(selector, marker, state, join)] *)
Definition applyPseudoToMarker {R : Type} (selector marker state : string)
    (join : string -> string -> R) : R :=
  let states := [state] in
  let markerIdx := indexOf selector (marker +:+ ":") 0 in
  let '(states, selector) :=
    if negb (markerIdx =? -1) then
      let existingMarker := slice selector markerIdx (indexOf selector " " markerIdx) in
      let states :=
        states ++ split (slice selector (markerIdx + len marker + 1) (len existingMarker)) ":" in
      (states, replace selector existingMarker "")
    else (states, selector) in
  join (JsString.join (marker :: states) ":") selector.

(** The [join] callback of the [group-*] variants. *)
Definition groupJoin (marker selector : string) : string :=
  marker +:+ " " +:+ selector.

(** The combined marker token is the first argument handed to [join]. *)
Definition markerToken (selector marker state : string) : string :=
  applyPseudoToMarker selector marker state (fun marker _ => marker).

(** ** Rule transform pipeline: selector splitting *)

(** The loop of [splitByNotEscapedCommas]; [prev] is [str[i - 1]], which is
    [undefined] in the first round. *)
Fixpoint splitLoop (prev : option ascii) (str : string)
    (chunks : list string) (currentChunk : string) : list string :=
  match str with
  | EmptyString => chunks ++ [currentChunk]
  | String c rest =>
      if Ascii.eqb c "," && negb (bool_decide (prev = Some "\"%char)) then
        splitLoop (Some c) rest (chunks ++ [currentChunk]) ""
      else
        splitLoop (Some c) rest chunks (currentChunk +:+ String c "")
  end.

Definition splitByNotEscapedCommas (str : string) : list string :=
  splitLoop None str [] "".

(** ** Selector rewriting over the selector AST

    The selector parser is an external collaborator.  Its AST is a root
    holding the comma separated selectors, each a sequence of nodes; a
    pseudo node may carry argument selectors of its own. *)

Module Selector.

Inductive nodeType :=
  Attribute | Combinator | Comment | Id | Nesting | StringLit | Tag | Universal.

Inductive node :=
| ClassName (value : string) (rawsValue : option string)
| Pseudo (value : string) (nodes : list (list node))
| Other (type : nodeType) (text : string).

Definition selector := list node.
Definition root := list selector.

(** What the code consumes from the parser library and from
    [./escapeCommas]: parsing, printing, the raw (escaped) spelling a class
    node has once a value was assigned to it (from the new value and the raw
    spelling it had), and the re-escaping of commas. *)
Record adapter := {
  parse : string -> root;
  toString : root -> string;
  assignedRaws : string -> option string -> option string;
  escapeCommas : string -> string
}.

Definition isClass (n : node) : bool :=
  match n with ClassName _ _ => true | _ => false end.

(** Number of class nodes below a node, a selector, a root. *)
Fixpoint countNode (n : node) : nat :=
  match n with
  | ClassName _ _ => 1
  | Pseudo _ sels => list_sum (map (fun sel => list_sum (map countNode sel)) sels)
  | Other _ _ => 0
  end.

Definition countSelector (sel : selector) : nat := list_sum (map countNode sel).
Definition countClasses (r : root) : nat := list_sum (map countSelector r).

End Selector.

Import Selector.

(** The [updateClass] callback gets the class name and the [withPseudo]
    helper.  Calling the helper inserts a pseudo node as a side effect, so a
    callback is a computation that yields the new class name together with
    the pseudo values it asked for, in call order. *)
Definition updating (A : Type) : Type := (list string * A)%type.

Definition withPseudo (className pseudo : string) : updating string :=
  ([pseudo], className).

Definition truthy (s : string) : bool := negb (bool_decide (s = "")).

(** The body run on one class node [sel]: the callback runs (each
    [withPseudo] call puts its node right behind [sel], so the last request
    ends up nearest), then the value is assigned and the raw value has its
    commas re-escaped.  The result is the node followed by what was
    inserted behind it. *)
Definition updateClassNode (A : adapter) (updateClass : string -> updating string)
    (value : string) (raws : option string) : list node :=
  let '(pseudos, updatedClass) := updateClass value in
  let inserted := rev (map (fun pseudo => Pseudo pseudo []) pseudos) in
  let raws := assignedRaws A updatedClass raws in
  let raws :=
    match raws with
    | Some r => if truthy r then Some (escapeCommas A r) else raws
    | None => raws
    end in
  ClassName updatedClass raws :: inserted.

(** [selectors.walkClasses(...)]: every class node at any depth, nodes of
    other types are kept and containers are entered. *)
Fixpoint walkClassesNode (A : adapter) (updateClass : string -> updating string)
    (n : node) : list node :=
  match n with
  | ClassName value raws => updateClassNode A updateClass value raws
  | Pseudo value sels =>
      [Pseudo value (map (flat_map (walkClassesNode A updateClass)) sels)]
  | Other _ _ => [n]
  end.

Definition walkClasses (A : adapter) (updateClass : string -> updating string)
    (r : root) : root :=
  map (flat_map (walkClassesNode A updateClass)) r.

(** [updateAllClasses(selectors, updateClass)] *)
Definition updateAllClasses (A : adapter) (selectors : string)
    (updateClass : string -> updating string) : string :=
  toString A (walkClasses A updateClass (parse A selectors)).

(** [sel.filter(({ type }) => type === 'class').pop()]: the last class node
    among the direct children of [sel], located by what stands before and
    behind it. *)
Fixpoint splitAtLastClass (sel : selector)
    : option (selector * (string * option string) * selector) :=
  match sel with
  | [] => None
  | n :: rest =>
      match splitAtLastClass rest with
      | Some (before, lastClass, behind) => Some (n :: before, lastClass, behind)
      | None =>
          match n with
          | ClassName value raws => Some ([], (value, raws), rest)
          | _ => None
          end
      end
  end.

Definition updateLastSelector (A : adapter) (updateClass : string -> updating string)
    (sel : selector) : selector :=
  match splitAtLastClass sel with
  | None => sel
  | Some (before, (value, raws), behind) =>
      before ++ updateClassNode A updateClass value raws ++ behind
  end.

(** [selectors.each(...)] visits the selectors of the root only. *)
Definition eachLastClass (A : adapter) (updateClass : string -> updating string)
    (r : root) : root :=
  map (updateLastSelector A updateClass) r.

(** [updateLastClasses(selectors, updateClass)] *)
Definition updateLastClasses (A : adapter) (selectors : string)
    (updateClass : string -> updating string) : string :=
  toString A (eachLastClass A updateClass (parse A selectors)).

(** What [updateLastClasses] does to one selector of the root: nothing when
    it has no class node among its nodes, and otherwise it rewrites the last
    one in place and leaves what stands before and behind it alone. *)
Definition lastClassRewritten (A : adapter) (updateClass : string -> updating string)
    (sel sel' : selector) : Prop :=
  (List.filter isClass sel = [] /\ sel' = sel)
  \/ (exists before value raws behind,
        sel = before ++ ClassName value raws :: behind
        /\ List.filter isClass behind = []
        /\ sel' = before ++ updateClassNode A updateClass value raws ++ behind).

(** The selector transform that [pseudoClassVariants] registers for a
    [group-*] variant: every class but the marker gets the variant's name in
    front, a selector this leaves unchanged is answered with [null], and
    otherwise the state is put on the marker. *)
Definition groupVariantSelector (A : adapter)
    (groupMarker groupVariantName separator state selector : string) : option string :=
  let variantSelector :=
    updateAllClasses A selector (fun className =>
      if bool_decide ("." +:+ className = groupMarker) then ([], className)
      else ([], groupVariantName +:+ separator +:+ className)) in
  if bool_decide (variantSelector = selector) then None
  else Some (applyPseudoToMarker variantSelector groupMarker state groupJoin).

(** ** Rule transform pipeline over the CSS tree *)

Module Css.

Inductive node :=
| Rule (selector : string) (nodes : list node)
| AtRule (name params : string) (nodes : list node)
| Decl (prop value : string)
| Comment (text : string).

(** What a rule can see of the node it hangs under. *)
Inductive parent :=
| ParentRoot
| ParentRule (selector : string)
| ParentAtRule (name params : string).

(** The at-rule a [wrap] callback creates. *)
Record atRule := { name : string; params : string; nodes : list node }.

(** A rule as handed to the [withRule] hook. *)
Definition hooked : Type := (string * list node)%type.

(** Nesting depth of a tree: the number of container levels a walk enters. *)
Fixpoint depth (n : node) : nat :=
  match n with
  | Rule _ ch | AtRule _ _ ch => S (foldr (fun c d => Nat.max (depth c) d) O ch)
  | Decl _ _ | Comment _ => O
  end.

Definition depthAll (l : list node) : nat :=
  foldr (fun c d => Nat.max (depth c) d) O l.

End Css.

Import Css.

(** A walk yields the rewritten nodes and the record of the rules the hook
    was called with, in call order.  A hook may hang new rules into the rule
    it is given, which the walk then enters as well, so the walk is bounded
    by the number of container levels it may enter and has no result when
    that bound is too small. *)
Definition walked (A : Type) : Type := option (A * list hooked).

(** [container.each]: the children in order, the records concatenated. *)
Fixpoint walkEach (visit : Css.node -> walked Css.node) (l : list Css.node)
    : walked (list Css.node) :=
  match l with
  | [] => Some ([], [])
  | child :: rest =>
      '(child', log1) ← visit child;
      '(rest', log2) ← walkEach visit rest;
      Some (child' :: rest', log1 ++ log2)
  end.

Section Pipeline.

(** [./isKeyframeRule] is not part of the sources at hand; it is a predicate
    on a rule that may inspect the rule and the node it hangs under. *)
Variable isKeyframeRule : parent -> string -> list Css.node -> bool.

(** [transformSelector] may answer [null], which [join] prints as the empty
    string. *)
Variable transformSelector : string -> option string.

(** The optional hook mutates the rule it is given. *)
Variable withRule : option (string -> list Css.node -> string * list Css.node).

(** The selector a rule that is no keyframe rule gets: the pieces between
    the commas that are not escaped, each transformed, joined by commas. *)
Definition transformedSelector (selector : string) : string :=
  join (map (fun piece => default "" (transformSelector piece))
            (splitByNotEscapedCommas selector)) ",".

(** The callback of [container.walkRules] on one rule: its new selector and
    children, and the record of the hook call. *)
Definition rewriteRule (selector : string) (children : list Css.node)
    : string * list Css.node * list hooked :=
  let transformed := transformedSelector selector in
  match withRule with
  | Some hook =>
      let '(selector', children') := hook transformed children in
      (selector', children', [(transformed, children)])
  | None => (transformed, children, [])
  end.

(** [walkRules]: the callback runs on a rule before the walk enters it, other
    containers are entered, leaves are passed by. *)
Fixpoint walkNode (fuel : nat) (up : parent) (n : Css.node) {struct fuel}
    : walked Css.node :=
  match n, fuel with
  | Decl _ _, _ | Comment _, _ => Some (n, [])
  | _, O => None
  | Rule selector children, S fuel =>
      if isKeyframeRule up selector children then
        '(children', log) ← walkEach (walkNode fuel (ParentRule selector)) children;
        Some (Rule selector children', log)
      else
        let '(selector1, children1, log0) := rewriteRule selector children in
        '(children', log) ← walkEach (walkNode fuel (ParentRule selector1)) children1;
        Some (Rule selector1 children', log0 ++ log)
  | AtRule name params children, S fuel =>
      '(children', log) ← walkEach (walkNode fuel (ParentAtRule name params)) children;
      Some (AtRule name params children', log)
  end.

(** The same rewriting written by recursion on the tree, for a pipeline
    without hook: keyframe rules keep their selector, every other rule gets
    the transformed one. *)
Fixpoint rewriteRules (up : parent) (n : Css.node) : Css.node :=
  match n with
  | Rule selector children =>
      if isKeyframeRule up selector children then
        Rule selector (map (rewriteRules (ParentRule selector)) children)
      else
        Rule (transformedSelector selector)
             (map (rewriteRules (ParentRule (transformedSelector selector))) children)
  | AtRule name params children =>
      AtRule name params (map (rewriteRules (ParentAtRule name params)) children)
  | Decl _ _ | Comment _ => n
  end.

Definition walkRules (fuel : nat) (container : list Css.node) : walked (list Css.node) :=
  walkEach (walkNode fuel ParentRoot) container.

(** [wrapper.append(nodes)] *)
Definition append (wrapper : atRule) (new : list Css.node) : atRule :=
  {| name := name wrapper; params := params wrapper; nodes := nodes wrapper ++ new |}.

Definition atRuleNode (a : atRule) : Css.node := AtRule (name a) (params a) (nodes a).

(** [transformAllSelectors(transformSelector, { wrap, withRule })] applied to
    a container, given as the list of its children. *)
Definition transformAllSelectors (fuel : nat) (wrap : option atRule)
    (container : list Css.node) : walked (list Css.node) :=
  '(container, log) ← walkRules fuel container;
  match wrap with
  | Some wrapper =>
      let nodes := container in
      let container := @nil Css.node in
      let wrapper := append wrapper nodes in
      Some (container ++ [atRuleNode wrapper], log)
  | None => Some (container, log)
  end.

(** A hook that hangs no deeper nesting into a rule than the rule had. *)
Definition hookBounded : Prop :=
  forall hook, withRule = Some hook ->
  forall selector children,
    (depthAll (hook selector children).2 <= depthAll children)%nat.

End Pipeline.

(** ** Value resolution *)

(** The validators and the normalizer of [./dataTypes]. *)
Module dataTypes.
Record t := {
  normalize : string -> string;
  length : string -> bool;
  number : string -> bool;
  percentage : string -> bool;
  url : string -> bool;
  color : string -> bool;
  genericName : string -> bool;
  familyName : string -> bool;
  image : string -> bool;
  absoluteSize : string -> bool;
  relativeSize : string -> bool;
  position : string -> bool;
  lineWidth : string -> bool
}.
End dataTypes.

(** The values the resolvers meet.  [undefined] is the [None] of an option;
    a number is a whole one.  Of an object, array or function only its
    identity matters here: it is defined and it is truthy. *)
Module Js.

Inductive reference :=
| Member (name : string)        (** [Object.prototype[name]] *)
| StringObject (s : string)     (** [Object(s)] for a text [s] *)
| TypeMap                       (** the object [typeMap] *)
| Accessor (name : string)      (** what [__lookupGetter__] and
                                    [__lookupSetter__] find for [__proto__] *)
| Other (id : nat).             (** any other object, array or function *)

Inductive value :=
| Text (s : string)
| Number (n : Z)
| Boolean (b : bool)
| Null
| Ref (r : reference).

(** The truthiness of a value, as [if (result)] tests it. *)
Definition toBoolean (v : value) : bool :=
  match v with
  | Text s => truthy s
  | Number n => negb (n =? 0)
  | Boolean b => b
  | Null => false
  | Ref _ => true
  end.

(** The names under which every plain object finds a member of
    [Object.prototype]: functions, but for [__proto__], under which it finds
    the prototype itself. *)
Definition objectPrototype : list string :=
  [ "constructor"; "__defineGetter__"; "__defineSetter__"; "hasOwnProperty";
    "__lookupGetter__"; "__lookupSetter__"; "isPrototypeOf"; "propertyIsEnumerable";
    "toString"; "valueOf"; "__proto__"; "toLocaleString" ].

Definition inherited (key : string) : option value :=
  if bool_decide (key ∈ objectPrototype) then Some (Ref (Member key)) else None.

(** [object[key]] for a plain object with the own properties [object]: an
    own property first, then what the prototype has under that name. *)
Definition getProperty (object : gmap string value) (key : string) : option value :=
  match object !! key with
  | Some v => Some v
  | None => inherited key
  end.

End Js.

(** The part of the configuration object the resolvers read.  The object is
    also handed to [asValue] as its options, whose [validate] property it
    then supplies when it has one. *)
Record themeConfig := { opacity : option (gmap string Js.value) }.
Record config := {
  theme : option themeConfig;
  validate : option (string -> bool)
}.

(** What a JavaScript call does: it returns, or it ends in a [TypeError]. *)
Inductive completion (A : Type) :=
| Return (a : A)
| Throw.
Arguments Return {A} a.
Arguments Throw {A}.

(** The array [coerceValue] returns: [[]] or [[value, type]]. *)
Inductive coerced :=
| Empty
| Pair (value : option Js.value) (type : string).

Definition isArbitraryValue (input : string) : bool :=
  startsWith input "[" && endsWith input "]".

Definition splitAlpha (modifier : string) : string * option string :=
  let slashIdx := lastIndexOf modifier "/" in
  if (slashIdx =? -1) || (slashIdx =? len modifier - 1) then (modifier, None)
  else (slice modifier 0 slashIdx, Some (sliceFrom modifier (slashIdx + 1))).

Definition splitAtFirst (input delim : string) : option string * string :=
  let idx := indexOf input delim 0 in
  if idx =? -1 then (None, input)
  else (Some (slice input 0 idx), sliceFrom input (idx + 1)).

Definition asLookupValue (modifier : string) (lookup : gmap string Js.value)
    : option Js.value :=
  Js.getProperty lookup modifier.

Section Resolvers.

Variable dt : dataTypes.t.

(** [withAlphaValue] of [./withAlphaVariable], called with two arguments. *)
Variable withAlphaValue : Js.value -> Js.value -> option Js.value.

(** [asValue(modifier, lookup, { validate })]; the validator defaults to the
    one that accepts everything. *)
Definition asValue (modifier : string) (lookup : gmap string Js.value)
    (validate : option (string -> bool)) : option Js.value :=
  let validate := default (fun _ => true) validate in
  match Js.getProperty lookup modifier with
  | Some value => Some value
  | None =>
      if negb (isArbitraryValue modifier) then None
      else
        let value := slice modifier 1 (-1) in
        if negb (validate value) then None
        else Some (Js.Text (dataTypes.normalize dt value))
  end.

(** [tailwindConfig.theme?.opacity?.[alpha]] *)
Definition themeOpacity (tailwindConfig : config) (alpha : string) : option Js.value :=
  scale ← (th ← theme tailwindConfig; opacity th);
  Js.getProperty scale alpha.

(** [asColor(modifier, lookup, tailwindConfig)].  When [splitAlpha] yields
    no alpha, [color] is the modifier itself, which was just found missing
    from [lookup], so the first branch on [alpha] is never taken. *)
Definition asColor (modifier : string) (lookup : gmap string Js.value)
    (tailwindConfig : config) : option Js.value :=
  match Js.getProperty lookup modifier with
  | Some value => Some value
  | None =>
      let '(color, alpha) := splitAlpha modifier in
      match Js.getProperty lookup color, alpha with
      | Some base, None => None
      | Some base, Some alpha =>
          if isArbitraryValue alpha then
            withAlphaValue base (Js.Text (slice alpha 1 (-1)))
          else
            match themeOpacity tailwindConfig alpha with
            | None => None
            | Some opacity => withAlphaValue base opacity
            end
      | None, _ => asValue modifier lookup (Some (dataTypes.color dt))
      end
  end.

Definition resolver : Type :=
  string -> gmap string Js.value -> config -> option Js.value.

Definition guess (validate : string -> bool) : resolver :=
  fun modifier lookup _ => asValue modifier lookup (Some validate).

(** [typeMap], in the order its keys are written. *)
Definition typeMap : list (string * resolver) :=
  [ ("any", fun modifier lookup tailwindConfig =>
              asValue modifier lookup (validate tailwindConfig));
    ("color", asColor);
    ("url", guess (dataTypes.url dt));
    ("image", guess (dataTypes.image dt));
    ("length", guess (dataTypes.length dt));
    ("percentage", guess (dataTypes.percentage dt));
    ("position", guess (dataTypes.position dt));
    ("lookup", fun modifier lookup _ => asLookupValue modifier lookup);
    ("generic-name", guess (dataTypes.genericName dt));
    ("family-name", guess (dataTypes.familyName dt));
    ("number", guess (dataTypes.number dt));
    ("line-width", guess (dataTypes.lineWidth dt));
    ("absolute-size", guess (dataTypes.absoluteSize dt));
    ("relative-size", guess (dataTypes.relativeSize dt)) ].

(** The own property [type] of [typeMap]. *)
Fixpoint typeMapGet (m : list (string * resolver)) (type : string) : option resolver :=
  match m with
  | [] => None
  | (key, f) :: m' => if bool_decide (key = type) then Some f else typeMapGet m' type
  end.

(** [Object.keys(typeMap)] *)
Definition supportedTypes : list string := map fst typeMap.

(** [supportedTypes.includes(name)] *)
Definition supported (name : string) : bool :=
  bool_decide (name ∈ supportedTypes).

(** [typeMap[type](modifier, values, tailwindConfig)] for a [type] that is
    no key of [typeMap].  [typeMap[type]] is then the member of
    [Object.prototype] of that name, called on [typeMap] with these
    arguments: [constructor] is [Object] and boxes the modifier;
    [toString], and [toLocaleString] through it, print the object;
    [valueOf] hands back [typeMap]; [hasOwnProperty] and
    [propertyIsEnumerable] tell whether the modifier is a key of [typeMap];
    [isPrototypeOf] denies it of a text; [__lookupGetter__] and
    [__lookupSetter__] find an accessor under [__proto__] only;
    [__defineGetter__] and [__defineSetter__] throw because [values] is no
    function; [__proto__] is the prototype, no function, and every other
    name is [undefined]: calling those throws. *)
Definition inheritedCall (type modifier : string) : completion (option Js.value) :=
  if bool_decide (type = "constructor") then
    Return (Some (Js.Ref (Js.StringObject modifier)))
  else if bool_decide (type ∈ ["toString"; "toLocaleString"]) then
    Return (Some (Js.Text "[object Object]"))
  else if bool_decide (type = "valueOf") then
    Return (Some (Js.Ref Js.TypeMap))
  else if bool_decide (type ∈ ["hasOwnProperty"; "propertyIsEnumerable"]) then
    Return (Some (Js.Boolean (supported modifier)))
  else if bool_decide (type = "isPrototypeOf") then
    Return (Some (Js.Boolean false))
  else if bool_decide (type ∈ ["__lookupGetter__"; "__lookupSetter__"]) then
    Return (if bool_decide (modifier = "__proto__")
            then Some (Js.Ref (Js.Accessor type)) else None)
  else Throw.

(** [typeMap[type](modifier, values, tailwindConfig)] *)
Definition typeMapCall (type modifier : string) (values : gmap string Js.value)
    (tailwindConfig : config) : completion (option Js.value) :=
  match typeMapGet typeMap type with
  | Some f => Return (f modifier values tailwindConfig)
  | None => inheritedCall type modifier
  end.

(** The loop of [coerceValue] over the candidate types. *)
Fixpoint firstMatching (types : list string) (modifier : string)
    (values : gmap string Js.value) (tailwindConfig : config) : completion coerced :=
  match types with
  | [] => Return Empty
  | type :: rest =>
      match typeMapCall type modifier values tailwindConfig with
      | Throw => Throw
      | Return (Some result) =>
          if Js.toBoolean result then Return (Pair (Some result) type)
          else firstMatching rest modifier values tailwindConfig
      | Return None => firstMatching rest modifier values tailwindConfig
      end
  end.

(** [coerceValue(types, modifier, values, tailwindConfig)] *)
Definition coerceValue (types : list string) (modifier : string)
    (values : gmap string Js.value) (tailwindConfig : config) : completion coerced :=
  let early :=
    if isArbitraryValue modifier then
      let '(explicitType, value) := splitAtFirst (slice modifier 1 (-1)) ":" in
      match explicitType with
      | Some explicitType =>
          if negb (supported explicitType) then Some Empty
          else if 0 <? len value then
            Some (Pair (asValue ("[" +:+ value +:+ "]") values (validate tailwindConfig))
                       explicitType)
          else None
      | None => None
      end
    else None in
  match early with
  | Some result => Return result
  | None => firstMatching types modifier values tailwindConfig
  end.

End Resolvers.

(** ** The class based transforms and the hooks of the variants *)

Section ClassPipeline.

(** What [transformAllClasses] and [transformLastClasses] do to the selector
    of a rule: [updateAllClasses(selector, transformClass)] in the first,
    [updateLastClasses(selector, transformClass)] in the second.  The two
    functions are otherwise the same text. *)
Variable variantSelector : string -> string.

Variable withRule : option (string -> list Css.node -> string * list Css.node).

(** The callback of [container.walkRules] in both: no rule is passed by and
    the selector is rewritten as a whole. *)
Definition rewriteRuleClasses (selector : string) (children : list Css.node)
    : string * list Css.node * list hooked :=
  let variantSelector := variantSelector selector in
  match withRule with
  | Some hook =>
      let '(selector', children') := hook variantSelector children in
      (selector', children', [(variantSelector, children)])
  | None => (variantSelector, children, [])
  end.

Fixpoint walkNodeClasses (fuel : nat) (n : Css.node) {struct fuel} : walked Css.node :=
  match n, fuel with
  | Decl _ _, _ | Comment _, _ => Some (n, [])
  | _, O => None
  | Rule selector children, S fuel =>
      let '(selector1, children1, log0) := rewriteRuleClasses selector children in
      '(children', log) ← walkEach (walkNodeClasses fuel) children1;
      Some (Rule selector1 children', log0 ++ log)
  | AtRule name params children, S fuel =>
      '(children', log) ← walkEach (walkNodeClasses fuel) children;
      Some (AtRule name params children', log)
  end.

Definition transformClasses (fuel : nat) (wrap : option atRule)
    (container : list Css.node) : walked (list Css.node) :=
  '(container, log) ← walkEach (walkNodeClasses fuel) container;
  match wrap with
  | Some wrapper =>
      let nodes := container in
      let container := @nil Css.node in
      let wrapper := append wrapper nodes in
      Some (container ++ [atRuleNode wrapper], log)
  | None => Some (container, log)
  end.

End ClassPipeline.

(** [transformAllClasses(transformClass, { wrap, withRule })] *)
Definition transformAllClasses (A : adapter) (transformClass : string -> updating string)
    (withRule : option (string -> list Css.node -> string * list Css.node))
    (fuel : nat) (wrap : option atRule) (container : list Css.node)
    : walked (list Css.node) :=
  transformClasses (fun selector => updateAllClasses A selector transformClass)
    withRule fuel wrap container.

(** [transformLastClasses(transformClass, { wrap, withRule })] *)
Definition transformLastClasses (A : adapter) (transformClass : string -> updating string)
    (withRule : option (string -> list Css.node -> string * list Css.node))
    (fuel : nat) (wrap : option atRule) (container : list Css.node)
    : walked (list Css.node) :=
  transformClasses (fun selector => updateLastClasses A selector transformClass)
    withRule fuel wrap container.

(** A tree with every rule's selector replaced, and nothing else touched. *)
Fixpoint mapSelectors (f : string -> string) (n : Css.node) : Css.node :=
  match n with
  | Rule selector children => Rule (f selector) (map (mapSelectors f) children)
  | AtRule name params children => AtRule name params (map (mapSelectors f) children)
  | Decl _ _ | Comment _ => n
  end.

(** A container's children put into the at-rule of [wrap], when there is
    one. *)
Definition wrapped (wrap : option atRule) (children : list Css.node) : list Css.node :=
  match wrap with
  | Some wrapper => [AtRule (name wrapper) (params wrapper) (nodes wrapper ++ children)]
  | None => children
  end.



(** The class names of a selector tree in the order of the text, those in
    the arguments of pseudo nodes included. *)
Fixpoint classValuesNode (n : Selector.node) : list string :=
  match n with
  | ClassName value _ => [value]
  | Pseudo _ sels => flat_map (flat_map classValuesNode) sels
  | Other _ _ => []
  end.

Definition classValues (r : root) : list string :=
  flat_map (flat_map classValuesNode) r.

(** The class callback of a [group-*] variant, as [groupVariantSelector]
    holds it. *)
Definition groupClassName (groupMarker groupVariantName separator className : string)
    : updating string :=
  if bool_decide ("." +:+ className = groupMarker) then ([], className)
  else ([], groupVariantName +:+ separator +:+ className).

(** ** The helpers of the container plugin

    The theme hands over plain data.  A value is [undefined], [null], a
    text or a number (a whole one, of a size that prints in plain digits);
    an object is the finite map of its own properties; what [Object.values]
    and [Object.entries] go through is a list in their order. *)

Module Container.

Inductive jsval :=
| JUndefined
| JNull
| JString (s : string)
| JNumber (n : Z).

(** The text a template literal makes of a value. *)
Definition toText (v : jsval) : string :=
  match v with
  | JUndefined => "undefined"
  | JNull => "null"
  | JString s => s
  | JNumber n => DecimalString.NilZero.string_of_int (Z.to_int n)
  end.

Definition truthyValue (v : jsval) : bool :=
  match v with
  | JUndefined | JNull => false
  | JString s => truthy s
  | JNumber n => negb (n =? 0)
  end.

Definition nullish (v : jsval) : bool :=
  match v with
  | JUndefined | JNull => true
  | _ => false
  end.

(** [o[key]] and [o.hasOwnProperty(key)] *)
Definition get (o : gmap string jsval) (key : string) : jsval :=
  default JUndefined (o !! key).

Definition hasOwnProperty (o : gmap string jsval) (key : string) : bool :=
  bool_decide (is_Some (o !! key)).

(** A breakpoint, or the paddings: a value or an object. *)
Inductive item :=
| Primitive (v : jsval)
| Object (o : gmap string jsval).

(** What a screen name stands for: one breakpoint or an array of them. *)
Inductive screen :=
| Single (breakpoint : item)
| Several (breakpoints : list item).

(** The filter and the map of [extractMinWidths] on one breakpoint: a value
    has no own property [min] or [min-width] and is filtered out, an object
    that has one of them yields [breakpoint['min-width'] ?? breakpoint.min]. *)
Definition minWidthOf (breakpoint : item) : option jsval :=
  match breakpoint with
  | Primitive _ => None
  | Object o =>
      if hasOwnProperty o "min" || hasOwnProperty o "min-width" then
        Some (if nullish (get o "min-width") then get o "min" else get o "min-width")
      else None
  end.

(** [extractMinWidths(breakpoints)] *)
Definition extractMinWidths (breakpoints : option (list (string * screen))) : list jsval :=
  flat_map
    (fun '(_, breakpoints) =>
       let breakpoints :=
         match breakpoints with
         | Single (Primitive (JString s)) => Single (Object {[ "min" := JString s ]})
         | _ => breakpoints
         end in
       let breakpoints :=
         match breakpoints with
         | Several l => l
         | Single breakpoint => [breakpoint]
         end in
       omap minWidthOf breakpoints)
    (default [] breakpoints).

Record entry := { screenName : string; minWidth : jsval; padding : jsval }.

(** The width [mapMinWidthsToPadding] reads off a screen: [value.min ||
    value['min-width']] for an object (an array has neither), the value
    itself otherwise. *)
Definition screenMinWidth (value : screen) : jsval :=
  match value with
  | Single (Object o) => if truthyValue (get o "min") then get o "min" else get o "min-width"
  | Several _ => JUndefined
  | Single (Primitive v) => v
  end.

Definition defaultEntry (paddings : gmap string jsval) : list entry :=
  if truthyValue (get paddings "DEFAULT") then
    [{| screenName := "DEFAULT"; minWidth := JNumber 0; padding := get paddings "DEFAULT" |}]
  else [].

(** [mapMinWidthsToPadding(minWidths, screens, paddings)];
    [Object.entries(screens)] throws when it is reached with no screens. *)
Definition mapMinWidthsToPadding (minWidths : list jsval)
    (screens : option (list (string * screen))) (paddings : item)
    : completion (list entry) :=
  match paddings with
  | Primitive JUndefined => Return []
  | Primitive v =>
      Return [{| screenName := "DEFAULT"; minWidth := JNumber 0; padding := v |}]
  | Object paddings =>
      let mapping := defaultEntry paddings in
      match minWidths, screens with
      | _ :: _, None => Throw
      | _, _ =>
          Return
            (mapping
             ++ flat_map
                  (fun minWidth =>
                     omap (fun '(screen, value) =>
                             if bool_decide (toText (screenMinWidth value) = toText minWidth)
                             then Some {| screenName := screen; minWidth := minWidth;
                                          padding := get paddings screen |}
                             else None)
                          (default [] screens))
                  minWidths)
      end
  end.

(** [generatePaddingFor(minWidth)] over the mapping: the padding that both
    [paddingRight] and [paddingLeft] get, or nothing for the empty object. *)
Definition generatePaddingFor (paddings : list entry) (width : jsval) : option jsval :=
  padding <$> List.find (fun p => bool_decide (toText (minWidth p) = toText width)) paddings.



End Container.

(** ** Measures used to state further properties *)

(** The commas of [s] that do not follow a backslash, where [prev] is the
    character before [s]: the separators [splitByNotEscapedCommas] sees. *)
Fixpoint unescapedCommas (prev : option ascii) (s : string) : nat :=
  match s with
  | EmptyString => O
  | String c rest =>
      (if Ascii.eqb c "," && negb (bool_decide (prev = Some "\"%char)) then 1 else 0)
      + unescapedCommas (Some c) rest
  end.

(** [n] spaces. *)
Fixpoint spaces (n : nat) : string :=
  match n with
  | O => ""
  | S n' => String " " (spaces n')
  end.

(** The last character of [s], or [prev] when [s] is empty. *)
Fixpoint lastChar (prev : option ascii) (s : string) : option ascii :=
  match s with
  | EmptyString => prev
  | String c rest => lastChar (Some c) rest
  end.

(** ** The split of a selector list as the specification words it

    Following the specification: a selector is split at its top-level
    commas, the commas that are not escaped and are outside every pair of
    parentheses. *)
Fixpoint topLevelLoop (depth : nat) (prev : option ascii) (str : string)
    (chunks : list string) (currentChunk : string) : list string :=
  match str with
  | EmptyString => chunks ++ [currentChunk]
  | String c rest =>
      let escaped := bool_decide (prev = Some "\"%char) in
      if Ascii.eqb c "," && negb escaped && Nat.eqb depth 0 then
        topLevelLoop depth (Some c) rest (chunks ++ [currentChunk]) ""
      else
        let depth :=
          if escaped then depth
          else if Ascii.eqb c "(" then S depth
          else if Ascii.eqb c ")" then Nat.pred depth
          else depth in
        topLevelLoop depth (Some c) rest chunks (currentChunk +:+ String c "")
  end.

Definition splitTopLevelCommas (str : string) : list string :=
  topLevelLoop 0 None str [] "".

(** ** Instances for running the definitions *)

(** Instances to run the pipeline on: a keyframe test that looks at the
    at-rule a rule hangs under, a transform that scopes every piece, and a
    hook that puts a declaration in front of the rule's children. *)
Definition underKeyframes (up : parent) (selector : string) (children : list Css.node)
    : bool :=
  match up with
  | ParentAtRule name _ => endsWith name "keyframes"
  | _ => false
  end.

Definition scoped (piece : string) : option string := Some (".dark " +:+ piece).

Definition withContent (selector : string) (children : list Css.node)
    : string * list Css.node :=
  (selector, Decl "content" "none" :: children).

(** Instances to run the resolvers on: validators that accept everything, a
    normalizer that changes nothing, an alpha composition that writes the
    color and the alpha side by side, and a configuration whose theme has
    the opacity scale of the specification's example. *)
Definition acceptAll : dataTypes.t :=
  {| dataTypes.normalize := fun value => value;
     dataTypes.length := fun _ => true;
     dataTypes.number := fun _ => true;
     dataTypes.percentage := fun _ => true;
     dataTypes.url := fun _ => true;
     dataTypes.color := fun _ => true;
     dataTypes.genericName := fun _ => true;
     dataTypes.familyName := fun _ => true;
     dataTypes.image := fun _ => true;
     dataTypes.absoluteSize := fun _ => true;
     dataTypes.relativeSize := fun _ => true;
     dataTypes.position := fun _ => true;
     dataTypes.lineWidth := fun _ => true |}.

Definition shown (v : Js.value) : string :=
  match v with
  | Js.Text s => s
  | Js.Ref (Js.Member name) => "function " +:+ name
  | _ => "?"
  end.

Definition sideBySide (color alpha : Js.value) : option Js.value :=
  Some (Js.Text (shown color +:+ " / " +:+ shown alpha)).

Definition halfOpacity : config :=
  {| theme := Some {| opacity := Some {[ "50" := Js.Text "0.5" ]} |}; validate := None |}.

(** An adapter that reads a selector text as one tag node and prints the
    nodes one behind the other, for running the class based transforms. *)
Definition printNode (n : Selector.node) : string :=
  match n with
  | ClassName value raws => "." +:+ default value raws
  | Pseudo value _ => value
  | Other _ text => text
  end.

Definition oneTag : adapter :=
  {| parse := fun text => [[Other Tag text]];
     toString := fun r => String.concat "," (map (fun sel => String.concat "" (map printNode sel)) r);
     assignedRaws := fun _ raws => raws;
     escapeCommas := fun raws => raws |}.

(** * Properties *)

(** ** The definitions at work *)

Example splitByNotEscapedCommas_ex :
  splitByNotEscapedCommas ".a\,b,.c" = [".a\,b"; ".c"].
Proof. reflexivity. Qed.

Example applyPseudoToMarker_ex :
  applyPseudoToMarker ".group-hover\:foo" ".group" "hover" groupJoin
  = ".group:hover .group-hover\:foo"
  /\ applyPseudoToMarker ".group:hover .group-focus\:group-hover\:foo" ".group" "focus" groupJoin
     = ".group:focus:hover  .group-focus\:group-hover\:foo".
Proof. vm_compute. split; reflexivity. Qed.

Example splitAlpha_ex :
  splitAlpha "red-500/50" = ("red-500", Some "50")
  /\ splitAlpha "red-500/" = ("red-500/", None)
  /\ splitAlpha "a/b/c" = ("a/b", Some "c")
  /\ splitAlpha "red-500" = ("red-500", None).
Proof. vm_compute. repeat split; reflexivity. Qed.

(** ** Facts about the string primitives *)

Section StringFacts.

Lemma app_cons (c : ascii) (s t : string) : String c s +:+ t = String c (s +:+ t).
Proof. reflexivity. Qed.

Lemma app_empty_r (s : string) : s +:+ "" = s.
Proof. induction s as [|c s IH]; [reflexivity|]. rewrite app_cons, IH. reflexivity. Qed.

Lemma app_assoc' (a b c : string) : (a +:+ b) +:+ c = a +:+ b +:+ c.
Proof. induction a as [|x a IH]; [reflexivity|]. rewrite !app_cons, IH. reflexivity. Qed.

Lemma length_app' (a b : string) :
  String.length (a +:+ b) = (String.length a + String.length b)%nat.
Proof. induction a as [|x a IH]; [reflexivity|]. rewrite app_cons. simpl. rewrite IH. reflexivity. Qed.

Lemma len_app (a b : string) : len (a +:+ b) = len a + len b.
Proof. unfold len. rewrite length_app'. lia. Qed.

Lemma len_nonneg (s : string) : 0 <= len s.
Proof. unfold len. lia. Qed.

Lemma len_cons (c : ascii) (s : string) : len (String c s) = 1 + len s.
Proof. unfold len. simpl String.length. lia. Qed.

Lemma prefix_app_same (p x : string) : String.prefix p (p +:+ x) = true.
Proof.
  induction p as [|c p IH]; [destruct x; reflexivity|].
  rewrite app_cons. simpl. destruct (ascii_dec c c); [exact IH|congruence].
Qed.

Lemma prefix_shorter (p x s : string) :
  String.prefix (p +:+ x) s = true -> String.prefix p s = true.
Proof.
  revert s. induction p as [|c p IH]; intros s H.
  - destruct s; reflexivity.
  - rewrite app_cons in H. destruct s as [|d s]; simpl in *; [discriminate|].
    destruct (ascii_dec c d); [auto|discriminate].
Qed.

Lemma substring_nothing (n : nat) (s : string) : String.substring n 0 s = "".
Proof. revert n. induction s as [|c s IH]; intros [|n]; simpl; auto. Qed.

Lemma substring_app_head (a b : string) :
  String.substring 0 (String.length a) (a +:+ b) = a.
Proof.
  induction a as [|c a IH].
  - apply substring_nothing.
  - rewrite app_cons. simpl. rewrite IH. reflexivity.
Qed.

Lemma substring_app_skip (a s : string) (n m : nat) :
  String.substring (String.length a + n) m (a +:+ s) = String.substring n m s.
Proof. induction a as [|c a IH]; [reflexivity|]. rewrite app_cons. simpl. exact IH. Qed.

Lemma slice_head (a b : string) (k : Z) : k = len a -> slice (a +:+ b) 0 k = a.
Proof.
  intros ->. unfold slice, clampIndex. rewrite len_app.
  pose proof (len_nonneg a). pose proof (len_nonneg b).
  replace (0 <? 0) with false by reflexivity.
  destruct (len a <? 0) eqn:E; [lia|].
  rewrite Z.min_l by lia. rewrite Z.min_l by lia.
  replace (Z.to_nat (len a - 0)) with (String.length a) by (unfold len; lia).
  apply substring_app_head.
Qed.

Lemma slice_middle (a b c : string) (i j : Z) :
  i = len a -> j = len a + len b -> slice (a +:+ b +:+ c) i j = b.
Proof.
  intros -> ->. unfold slice, clampIndex. rewrite !len_app.
  pose proof (len_nonneg a). pose proof (len_nonneg b). pose proof (len_nonneg c).
  destruct (len a <? 0) eqn:E1; [lia|].
  destruct (len a + len b <? 0) eqn:E2; [lia|].
  rewrite !Z.min_l by lia.
  replace (Z.to_nat (len a)) with (String.length a + 0)%nat by (unfold len; lia).
  replace (Z.to_nat (len a + len b - len a)) with (String.length b) by (unfold len; lia).
  rewrite substring_app_skip. apply substring_app_head.
Qed.

Lemma sliceFrom_tail (a b : string) (i : Z) : i = len a -> sliceFrom (a +:+ b) i = b.
Proof.
  intros ->. unfold sliceFrom.
  replace (a +:+ b) with (a +:+ b +:+ "") by (rewrite app_empty_r; reflexivity).
  apply slice_middle; [reflexivity|].
  rewrite app_empty_r. apply len_app.
Qed.

Lemma slice_nothing (s : string) : slice s 0 0 = "".
Proof. apply (slice_head "" s). reflexivity. Qed.

Lemma indexOf_zero (s pat : string) : indexOf s pat 0 = scan pat s 0.
Proof.
  unfold indexOf. pose proof (len_nonneg s).
  rewrite Z.max_l, Z.min_l by lia. reflexivity.
Qed.

Lemma scan_here (pat s : string) (i : Z) : String.prefix pat s = true -> scan pat s i = i.
Proof. intros H. destruct s; cbn [scan]; rewrite H; reflexivity. Qed.

Lemma indexOf_head (p x : string) : indexOf (p +:+ x) p 0 = 0.
Proof. rewrite indexOf_zero. apply scan_here, prefix_app_same. Qed.

Lemma scan_longer_absent (pat x s : string) (i : Z) :
  0 <= i -> scan pat s i = -1 -> scan (pat +:+ x) s i = -1.
Proof.
  revert i. induction s as [|c s IH]; intros i Hi; cbn [scan].
  - destruct (String.prefix pat "") eqn:E; [lia|]. intros _.
    destruct (String.prefix (pat +:+ x) "") eqn:E'; [|reflexivity].
    apply prefix_shorter in E'. congruence.
  - destruct (String.prefix pat (String c s)) eqn:E; [lia|]. intros H.
    destruct (String.prefix (pat +:+ x) (String c s)) eqn:E'.
    + apply prefix_shorter in E'. congruence.
    + apply IH; [lia|assumption].
Qed.

Lemma occurs_app (c : ascii) (a b : string) :
  occurs c (a +:+ b) = occurs c a || occurs c b.
Proof.
  induction a as [|d a IH]; [reflexivity|].
  rewrite app_cons. simpl. rewrite IH. apply orb_assoc.
Qed.

Lemma scan_char_first (c : ascii) (a b : string) (i : Z) :
  occurs c a = false -> scan (String c "") (a +:+ String c b) i = i + len a.
Proof.
  revert i. induction a as [|d a IH]; intros i H.
  - change ("" +:+ String c b) with (String c b). simpl.
    destruct (ascii_dec c c); [|congruence]. destruct b; unfold len; simpl; lia.
  - rewrite app_cons. simpl in H. apply orb_false_iff in H as [Hd Ha].
    simpl. destruct (ascii_dec c d) as [->|_].
    + rewrite Ascii.eqb_refl in Hd. discriminate.
    + rewrite IH by assumption. rewrite len_cons. lia.
Qed.

Lemma splitAcc_absent (c : ascii) (s cur : string) :
  occurs c s = false -> splitAcc c s cur = [cur +:+ s].
Proof.
  revert cur. induction s as [|d s IH]; intros cur H; simpl.
  - rewrite app_empty_r. reflexivity.
  - simpl in H. apply orb_false_iff in H as [Hd Hs]. rewrite Hd.
    rewrite IH by assumption. rewrite app_assoc'. reflexivity.
Qed.

Lemma concat_snoc (sep x y : string) (l : list string) :
  String.concat sep ((x :: l) ++ [y]) = String.concat sep (x :: l) +:+ sep +:+ y.
Proof.
  revert x. induction l as [|z l IH]; intros x; [reflexivity|].
  change (String.concat sep ((x :: z :: l) ++ [y]))
    with (x +:+ sep +:+ String.concat sep ((z :: l) ++ [y])).
  rewrite IH.
  change (String.concat sep (x :: z :: l)) with (x +:+ sep +:+ String.concat sep (z :: l)).
  rewrite !app_assoc'. reflexivity.
Qed.

Lemma concat_last_grows (sep x y : string) (l : list string) :
  String.concat sep (l ++ [x +:+ y]) = String.concat sep (l ++ [x]) +:+ y.
Proof.
  destruct l as [|z l]; [reflexivity|].
  rewrite !concat_snoc, !app_assoc'. reflexivity.
Qed.

End StringFacts.

(** ** Splitting a selector list and joining it again *)

Section SplitJoin.

Lemma splitLoop_join (prev : option ascii) (s : string) (chunks : list string) (cur : string) :
  String.concat "," (splitLoop prev s chunks cur)
  = String.concat "," (chunks ++ [cur]) +:+ s.
Proof.
  revert prev chunks cur. induction s as [|c s IH]; intros prev chunks cur; cbn [splitLoop].
  - rewrite app_empty_r. reflexivity.
  - destruct (Ascii.eqb c "," && negb (bool_decide (prev = Some "\"%char))) eqn:E.
    + apply andb_true_iff in E as [Hc _]. apply Ascii.eqb_eq in Hc as ->.
      rewrite IH. destruct chunks as [|x chunks].
      * change (String.concat "," (([] ++ [cur]) ++ [""])) with (cur +:+ "," +:+ "").
        change (String.concat "," ([] ++ [cur])) with cur.
        rewrite !app_assoc'. reflexivity.
      * change ((x :: chunks) ++ [cur]) with (x :: (chunks ++ [cur])).
        rewrite concat_snoc, !app_assoc'. reflexivity.
    + rewrite IH, concat_last_grows, app_assoc'. reflexivity.
Qed.

Lemma unescapedCommas_snoc (prev : option ascii) (s : string) (c : ascii) :
  unescapedCommas prev (s +:+ String c "")
  = (unescapedCommas prev s
     + if Ascii.eqb c "," && negb (bool_decide (lastChar prev s = Some "\"%char))
       then 1 else 0)%nat.
Proof.
  revert prev. induction s as [|d s IH]; intros prev.
  - change ("" +:+ String c "") with (String c ""). cbn [unescapedCommas lastChar]. lia.
  - rewrite app_cons. cbn [unescapedCommas lastChar]. rewrite IH. lia.
Qed.

Lemma lastChar_snoc (prev : option ascii) (s : string) (c : ascii) :
  lastChar prev (s +:+ String c "") = Some c.
Proof.
  revert prev. induction s as [|d s IH]; intros prev; [reflexivity|].
  rewrite app_cons. cbn [lastChar]. apply IH.
Qed.

Lemma splitLoop_pieces (s : string) (prev : option ascii) (chunks : list string)
    (cur : string) :
  (prev = Some "\"%char -> lastChar None cur = Some "\"%char) ->
  unescapedCommas None cur = 0%nat ->
  Forall (fun chunk => unescapedCommas None chunk = 0%nat) chunks ->
  Forall (fun chunk => unescapedCommas None chunk = 0%nat) (splitLoop prev s chunks cur)
  /\ List.length (splitLoop prev s chunks cur)
     = (List.length chunks + 1 + unescapedCommas prev s)%nat.
Proof.
  revert prev chunks cur. induction s as [|c s IH]; intros prev chunks cur Hprev Hcur Hchunks;
    cbn [splitLoop unescapedCommas].
  - split.
    + apply Forall_app. split; [exact Hchunks|]. constructor; [exact Hcur|constructor].
    + rewrite length_app. cbn [List.length]. lia.
  - destruct (Ascii.eqb c "," && negb (bool_decide (prev = Some "\"%char))) eqn:E.
    + destruct (IH (Some c) (chunks ++ [cur]) "") as [Hall Hlen].
      * apply andb_true_iff in E as [Hc _]. apply Ascii.eqb_eq in Hc as ->. discriminate.
      * reflexivity.
      * apply Forall_app. split; [exact Hchunks|]. constructor; [exact Hcur|constructor].
      * split; [exact Hall|]. rewrite Hlen, length_app. cbn [List.length]. lia.
    + destruct (IH (Some c) chunks (cur +:+ String c "")) as [Hall Hlen].
      * intros [= ->]. apply lastChar_snoc.
      * rewrite unescapedCommas_snoc, Hcur.
        destruct (Ascii.eqb c ",") eqn:Hc; [|reflexivity].
        cbn [andb] in E. apply negb_false_iff, bool_decide_eq_true in E.
        rewrite (Hprev E). rewrite bool_decide_eq_true_2 by reflexivity. reflexivity.
      * exact Hchunks.
      * split; [exact Hall|]. rewrite Hlen. lia.
Qed.

(** C10: for every string, joining the chunks of [splitByNotEscapedCommas]
    with a comma gives the string back; the empty string has the single
    empty chunk; and hence a rule whose pieces are all handed back as they
    are keeps its selector. *)
Theorem splitByNotEscapedCommas_lossless :
  (forall s : string, join (splitByNotEscapedCommas s) "," = s)
  /\ splitByNotEscapedCommas "" = [""]
  /\ (forall (s : string) (children : list Css.node),
        rewriteRule (fun piece => Some piece) None s children = (s, children, [])).
Proof.
  assert (H : forall s : string, join (splitByNotEscapedCommas s) "," = s).
  { intros s. unfold join, splitByNotEscapedCommas. rewrite splitLoop_join. reflexivity. }
  split; [exact H|]. split; [reflexivity|].
  intros s children. unfold rewriteRule, transformedSelector.
  replace (map (fun piece => default "" (Some piece)) (splitByNotEscapedCommas s))
    with (splitByNotEscapedCommas s) by (symmetry; apply map_id).
  rewrite H. reflexivity.
Qed.

End SplitJoin.

(** ** Marker state merging *)

Section MarkerState.

Context {R : Type}.

Lemma includes_false (s pat : string) : includes s pat = false -> scan pat s 0 = -1.
Proof.
  unfold includes. rewrite indexOf_zero. intros H.
  apply negb_false_iff, Z.eqb_eq in H. exact H.
Qed.

Lemma applyPseudoToMarker_fresh {T : Type} (selector marker state : string)
    (join : string -> string -> T) :
  indexOf selector (marker +:+ ":") 0 = -1 ->
  applyPseudoToMarker selector marker state join = join (marker +:+ ":" +:+ state) selector.
Proof. intros H. unfold applyPseudoToMarker. rewrite H. reflexivity. Qed.

(** C2, as the code has it: a selector that does not contain the marker is
    not handed back unchanged.  The marker token is made up from the marker
    and the state, and [join] gets it together with the untouched selector;
    with the join of the group variants the result is the token, a space and
    the selector, which is never the selector itself. *)
Theorem applyPseudoToMarker_marker_absent
    (selector marker state : string) (join : string -> string -> R) :
  includes selector marker = false ->
  applyPseudoToMarker selector marker state join = join (marker +:+ ":" +:+ state) selector
  /\ applyPseudoToMarker selector marker state groupJoin
     = marker +:+ ":" +:+ state +:+ " " +:+ selector
  /\ applyPseudoToMarker selector marker state groupJoin <> selector.
Proof.
  intros H. apply includes_false in H.
  assert (Hidx : indexOf selector (marker +:+ ":") 0 = -1).
  { rewrite indexOf_zero. apply scan_longer_absent; [lia|exact H]. }
  split; [apply applyPseudoToMarker_fresh, Hidx|].
  rewrite (applyPseudoToMarker_fresh _ _ _ _ Hidx). unfold groupJoin.
  rewrite !app_assoc'. split; [reflexivity|].
  intros E. apply (f_equal String.length) in E.
  rewrite !length_app' in E. simpl in E. lia.
Qed.

(** A marker that stands first in the selector and carries one state. *)
Lemma applyPseudoToMarker_existing
    (marker s1 s2 rest : string) (join : string -> string -> R) :
  occurs " " marker = false ->
  occurs " " s1 = false ->
  occurs ":" s1 = false ->
  applyPseudoToMarker (marker +:+ ":" +:+ s1 +:+ " " +:+ rest) marker s2 join
  = join (marker +:+ ":" +:+ s2 +:+ ":" +:+ s1) (" " +:+ rest).
Proof.
  intros Hm Hs1 Hc. unfold applyPseudoToMarker.
  set (token := (marker +:+ ":") +:+ s1).
  assert (Esel : marker +:+ ":" +:+ s1 +:+ " " +:+ rest = token +:+ " " +:+ rest).
  { unfold token. rewrite !app_assoc'. reflexivity. }
  assert (Esel' : marker +:+ ":" +:+ s1 +:+ " " +:+ rest
                  = (marker +:+ ":") +:+ s1 +:+ " " +:+ rest).
  { rewrite !app_assoc'. reflexivity. }
  assert (Hidx : indexOf (marker +:+ ":" +:+ s1 +:+ " " +:+ rest) (marker +:+ ":") 0 = 0).
  { rewrite Esel'. apply indexOf_head. }
  rewrite Hidx. cbn [negb Z.eqb].
  assert (Hsp : indexOf (marker +:+ ":" +:+ s1 +:+ " " +:+ rest) " " 0 = len token).
  { rewrite indexOf_zero, Esel. change (" " +:+ rest) with (String " " rest).
    rewrite scan_char_first; [lia|]. unfold token.
    rewrite !occurs_app, Hm, Hs1. reflexivity. }
  rewrite Hsp.
  assert (Hex : slice (marker +:+ ":" +:+ s1 +:+ " " +:+ rest) 0 (len token) = token).
  { rewrite Esel. apply slice_head. reflexivity. }
  rewrite Hex.
  assert (Hst : slice (marker +:+ ":" +:+ s1 +:+ " " +:+ rest) (0 + len marker + 1) (len token) = s1).
  { rewrite Esel'. apply slice_middle.
    - rewrite len_app. reflexivity.
    - unfold token. rewrite len_app. reflexivity. }
  rewrite Hst. unfold split. rewrite splitAcc_absent by assumption.
  assert (Hrep : replace (marker +:+ ":" +:+ s1 +:+ " " +:+ rest) token "" = " " +:+ rest).
  { unfold replace. rewrite Esel, indexOf_head. cbn [Z.eqb].
    rewrite slice_nothing, sliceFrom_tail by reflexivity. reflexivity. }
  rewrite Hrep. reflexivity.
Qed.

(** C1, as the code has it: a state applied to a marker that already carries
    states is put in front of them.  For a selector that starts with the
    marker token [marker:s1] followed by a space, applying [s2] hands
    [marker:s2:s1] to [join], with the rest of the selector from that space
    on. *)
Theorem applyPseudoToMarker_prepends
    (marker s1 s2 rest : string) (join : string -> string -> R) :
  occurs " " marker = false ->
  occurs " " s1 = false ->
  occurs ":" s1 = false ->
  applyPseudoToMarker (marker +:+ ":" +:+ s1 +:+ " " +:+ rest) marker s2 join
  = join (marker +:+ ":" +:+ s2 +:+ ":" +:+ s1) (" " +:+ rest).
Proof. apply applyPseudoToMarker_existing. Qed.

End MarkerState.

(** Two states put on a marker one after the other, with the join of the
    group variants: the second one ends up in front. *)
Lemma applyPseudoToMarker_twice (selector marker s1 s2 : string) :
  indexOf selector (marker +:+ ":") 0 = -1 ->
  occurs " " marker = false ->
  occurs " " s1 = false ->
  occurs ":" s1 = false ->
  markerToken (applyPseudoToMarker selector marker s1 groupJoin) marker s2
  = marker +:+ ":" +:+ s2 +:+ ":" +:+ s1.
Proof.
  intros Hfresh Hm Hs Hc. rewrite (applyPseudoToMarker_fresh _ _ _ _ Hfresh).
  unfold groupJoin, markerToken. rewrite !app_assoc'.
  apply (applyPseudoToMarker_existing marker s1 s2 selector); assumption.
Qed.

(** C1, at the states of the specification's example: [focus] after [hover]
    gives the token [.group:focus:hover], [hover] after [focus] gives
    [.group:hover:focus], so the two orders do not agree and the first is
    not the token the specification names. *)
Lemma applyPseudoToMarker_order_matters :
  let hoverFocus :=
    markerToken (applyPseudoToMarker ".foo" ".group" "hover" groupJoin) ".group" "focus" in
  let focusHover :=
    markerToken (applyPseudoToMarker ".foo" ".group" "focus" groupJoin) ".group" "hover" in
  hoverFocus = ".group:focus:hover"
  /\ focusHover = ".group:hover:focus"
  /\ ~ (hoverFocus = focusHover /\ hoverFocus = ".group:hover:focus").
Proof.
  vm_compute. split; [reflexivity|]. split; [reflexivity|].
  intros [H _]. discriminate H.
Qed.

(** C1 at [.group:hover .x] and the state [focus]. *)
Lemma applyPseudoToMarker_prepends_witness :
  applyPseudoToMarker (".group" +:+ ":" +:+ "hover" +:+ " " +:+ ".x") ".group" "focus" groupJoin
  = groupJoin (".group" +:+ ":" +:+ "focus" +:+ ":" +:+ "hover") (" " +:+ ".x").
Proof.
  apply (applyPseudoToMarker_prepends ".group" "hover" "focus" ".x" groupJoin);
    reflexivity.
Defined.

(** C2, at a selector without the marker: the group variant's result gains
    a marker token in front instead of being the input. *)
Lemma applyPseudoToMarker_absent_not_unchanged :
  includes ".foo" ".group" = false
  /\ applyPseudoToMarker ".foo" ".group" "hover" groupJoin = ".group:hover .foo"
  /\ applyPseudoToMarker ".foo" ".group" "hover" groupJoin <> ".foo".
Proof. vm_compute. split; [reflexivity|]. split; [reflexivity|]. discriminate. Qed.

(** C2 at the selector [.foo], which has no [.group] in it. *)
Lemma applyPseudoToMarker_marker_absent_witness :
  applyPseudoToMarker ".foo" ".group" "hover" groupJoin
  = groupJoin (".group" +:+ ":" +:+ "hover") ".foo"
  /\ applyPseudoToMarker ".foo" ".group" "hover" groupJoin
     = ".group" +:+ ":" +:+ "hover" +:+ " " +:+ ".foo"
  /\ applyPseudoToMarker ".foo" ".group" "hover" groupJoin <> ".foo".
Proof.
  apply (applyPseudoToMarker_marker_absent ".foo" ".group" "hover" groupJoin).
  reflexivity.
Defined.

(** ** Rewriting class nodes *)

Section ClassRewriting.

Variable A : adapter.
Variable updateClass : string -> updating string.

(** Induction on selector nodes that reaches into the argument selectors
    of a pseudo node. *)
Lemma node_nested_ind (P : Selector.node -> Prop) :
  (forall value raws, P (ClassName value raws)) ->
  (forall value sels, Forall (Forall P) sels -> P (Pseudo value sels)) ->
  (forall type text, P (Other type text)) ->
  forall n, P n.
Proof.
  intros HClass HPseudo HOther. fix IH 1. intros [value raws|value sels|type text].
  - apply HClass.
  - apply HPseudo. induction sels as [|sel sels IHsels]; constructor; [|exact IHsels].
    induction sel as [|n sel IHsel]; constructor; [apply IH|exact IHsel].
  - apply HOther.
Qed.

Example updateClassNode_ex :
  exists raws,
    updateClassNode A
      (fun className => withPseudo ("first-letter:" +:+ className) "::first-letter")
      "a" None
    = [ClassName "first-letter:a" raws; Pseudo "::first-letter" []].
Proof. eexists. reflexivity. Qed.

Lemma countSelector_app (a b : selector) :
  countSelector (a ++ b) = (countSelector a + countSelector b)%nat.
Proof. unfold countSelector. rewrite map_app, list_sum_app. reflexivity. Qed.

Lemma countSelector_pseudos (pseudos : list string) :
  countSelector (rev (map (fun pseudo => Pseudo pseudo []) pseudos)) = 0%nat.
Proof.
  induction pseudos as [|p ps IH]; [reflexivity|].
  simpl. rewrite countSelector_app, IH. reflexivity.
Qed.

Lemma updateClassNode_shape (value : string) (old : option string) :
  exists raws,
    updateClassNode A updateClass value old
    = ClassName (updateClass value).2 raws
      :: rev (map (fun pseudo => Pseudo pseudo []) (updateClass value).1).
Proof.
  unfold updateClassNode. destruct (updateClass value) as [pseudos updated].
  eexists. reflexivity.
Qed.

Lemma updateClassNode_count (value : string) (old : option string) :
  countSelector (updateClassNode A updateClass value old) = 1%nat.
Proof.
  destruct (updateClassNode_shape value old) as [raws ->].
  change (countSelector (ClassName ?v ?r :: ?l)) with (S (countSelector l)).
  rewrite countSelector_pseudos. reflexivity.
Qed.

Lemma countSelector_flat_map (f : Selector.node -> list Selector.node) (sel : selector) :
  Forall (fun n => countSelector (f n) = countNode n) sel ->
  countSelector (flat_map f sel) = countSelector sel.
Proof.
  induction 1 as [|n sel Hn _ IH]; [reflexivity|].
  simpl. rewrite countSelector_app, Hn, IH. reflexivity.
Qed.

Lemma walkClassesNode_count (n : Selector.node) :
  countSelector (walkClassesNode A updateClass n) = countNode n.
Proof.
  induction n as [value raws|value sels IH|type text] using node_nested_ind.
  - apply updateClassNode_count.
  - cbn [walkClassesNode]. unfold countSelector at 1. cbn [map countNode].
    unfold list_sum at 1. cbn [fold_right].
    rewrite Nat.add_0_r, map_map. f_equal.
    induction IH as [|sel sels Hsel _ IHsels]; [reflexivity|].
    cbn [map]. f_equal; [|exact IHsels].
    apply (countSelector_flat_map _ sel Hsel).
  - reflexivity.
Qed.

(** C4: rewriting every class keeps the number of class nodes, whatever the
    selector and the callback: each class node is replaced by one class node
    followed by the pseudo nodes the callback asked for, which hold no class
    node. *)
Theorem updateAllClasses_preserves_class_count :
  (forall r : root, countClasses (walkClasses A updateClass r) = countClasses r)
  /\ (forall selectors : string,
        updateAllClasses A selectors updateClass
        = toString A (walkClasses A updateClass (parse A selectors))
        /\ countClasses (walkClasses A updateClass (parse A selectors))
           = countClasses (parse A selectors))
  /\ (forall (value : string) (old : option string),
        exists raws,
          updateClassNode A updateClass value old
          = ClassName (updateClass value).2 raws
            :: rev (map (fun pseudo => Pseudo pseudo []) (updateClass value).1)).
Proof.
  assert (H : forall r : root, countClasses (walkClasses A updateClass r) = countClasses r).
  { intros r. unfold countClasses, walkClasses. rewrite map_map. f_equal.
    induction r as [|sel r IH]; [reflexivity|]. cbn [map]. f_equal; [|exact IH].
    apply countSelector_flat_map, Forall_forall. intros n _. apply walkClassesNode_count. }
  split; [exact H|]. split.
  - intros selectors. split; [reflexivity|apply H].
  - apply updateClassNode_shape.
Qed.

Lemma splitAtLastClass_none (sel : selector) :
  splitAtLastClass sel = None <-> List.filter isClass sel = [].
Proof.
  induction sel as [|n sel IH]; [split; reflexivity|]. cbn [splitAtLastClass List.filter].
  destruct (splitAtLastClass sel) as [[[before lastClass] behind]|].
  - split; [discriminate|]. intros H. destruct (isClass n); [discriminate|].
    apply IH in H. discriminate.
  - destruct n; cbn [isClass]; split; try discriminate; tauto.
Qed.

Lemma splitAtLastClass_some (sel before behind : selector) (value : string)
    (raws : option string) :
  splitAtLastClass sel = Some (before, (value, raws), behind) ->
  sel = before ++ ClassName value raws :: behind /\ List.filter isClass behind = [].
Proof.
  revert before. induction sel as [|n sel IH]; intros before; [discriminate|].
  cbn [splitAtLastClass].
  destruct (splitAtLastClass sel) as [[[before' lastClass] behind']|] eqn:E.
  - intros [= <- -> <-]. destruct (IH before' eq_refl) as (-> & Hbehind).
    split; [reflexivity|exact Hbehind].
  - destruct n as [v r| |]; try discriminate.
    intros [= <- <- <- <-]. split; [reflexivity|].
    apply splitAtLastClass_none, E.
Qed.

Lemma updateLastSelector_spec (sel : selector) :
  lastClassRewritten A updateClass sel (updateLastSelector A updateClass sel).
Proof.
  unfold updateLastSelector, lastClassRewritten.
  destruct (splitAtLastClass sel) as [[[before [value raws]] behind]|] eqn:E.
  - right. destruct (splitAtLastClass_some _ _ _ _ _ E) as (Hsel & Hbehind).
    exists before, value, raws, behind. auto.
  - left. split; [apply splitAtLastClass_none, E|reflexivity].
Qed.

Lemma countSelector_zero (sel : selector) :
  countSelector sel = 0%nat -> List.filter isClass sel = [].
Proof.
  induction sel as [|n sel IH]; [reflexivity|].
  change (countSelector (n :: sel)) with (countNode n + countSelector sel)%nat.
  intros H. destruct n as [value raws|value sels|type text]; cbn [List.filter isClass];
    [simpl in H; lia| |]; apply IH; lia.
Qed.

(** C5: in every selector of the root at most one class node changes, the
    last one among the selector's own nodes, which alone is given to the
    callback: what stands before and behind it stays, and so do the other
    class nodes; a selector without a class node comes back as it was. *)
Theorem updateLastClasses_last_class_only :
  (forall r : root,
     Forall2 (lastClassRewritten A updateClass) r (eachLastClass A updateClass r))
  /\ (forall selectors : string,
        updateLastClasses A selectors updateClass
        = toString A (eachLastClass A updateClass (parse A selectors)))
  /\ (forall sel : selector,
        List.filter isClass sel = [] -> updateLastSelector A updateClass sel = sel)
  /\ (forall sel : selector,
        countSelector sel = 0%nat -> updateLastSelector A updateClass sel = sel)
  /\ (forall before behind value raws,
        List.filter isClass behind = [] ->
        List.filter isClass
          (updateLastSelector A updateClass (before ++ ClassName value raws :: behind))
        = List.filter isClass before
          ++ List.filter isClass (updateClassNode A updateClass value raws)
        /\ List.length (List.filter isClass (updateClassNode A updateClass value raws))
           = 1%nat).
Proof.
  assert (Hnone : forall sel : selector,
            List.filter isClass sel = [] -> updateLastSelector A updateClass sel = sel).
  { intros sel H. unfold updateLastSelector.
    apply splitAtLastClass_none in H. rewrite H. reflexivity. }
  split; [|split; [|split; [|split]]].
  - intros r. unfold eachLastClass. induction r as [|sel r IH]; constructor;
      [apply updateLastSelector_spec|exact IH].
  - reflexivity.
  - exact Hnone.
  - intros sel H. apply Hnone, countSelector_zero, H.
  - intros before behind value raws Hbehind.
    assert (Hone : forall v r,
              exists r', List.filter isClass (updateClassNode A updateClass v r)
                         = [ClassName (updateClass v).2 r']).
    { intros v r. destruct (updateClassNode_shape v r) as [r' ->]. exists r'.
      cbn [List.filter isClass]. f_equal.
      induction (updateClass v).1 as [|p ps IHp]; [reflexivity|].
      cbn [map rev]. rewrite List.filter_app, IHp. reflexivity. }
    split; [|destruct (Hone value raws) as [r' ->]; reflexivity].
    destruct (updateLastSelector_spec (before ++ ClassName value raws :: behind))
      as [[Hempty _]|(before' & value' & raws' & behind' & Hsel & Hbehind' & ->)].
    + rewrite List.filter_app in Hempty. cbn [List.filter isClass] in Hempty.
      destruct (List.filter isClass before); discriminate.
    + assert (Hcls : List.filter isClass before ++ [ClassName value raws]
                     = List.filter isClass before' ++ [ClassName value' raws']).
      { apply (f_equal (List.filter isClass)) in Hsel.
        rewrite !List.filter_app in Hsel. cbn [List.filter isClass] in Hsel.
        rewrite Hbehind, Hbehind' in Hsel. exact Hsel. }
      apply app_inj_tail in Hcls as [Hbefore [= -> ->]].
      rewrite !List.filter_app, Hbehind', app_nil_r, Hbefore. reflexivity.
Qed.

(** The [null] of a group variant is the caller's: it is given exactly when
    the class rewrite left the selector text as it was. *)
Lemma groupVariantSelector_null
    (groupMarker groupVariantName separator state selector : string) :
  groupVariantSelector A groupMarker groupVariantName separator state selector = None
  <-> updateAllClasses A selector (fun className =>
        if bool_decide ("." +:+ className = groupMarker) then ([], className)
        else ([], groupVariantName +:+ separator +:+ className)) = selector.
Proof.
  unfold groupVariantSelector. case_bool_decide as H; split; intros H'; try done.
Qed.

End ClassRewriting.

(** ** The rule transform pipeline *)

Section PipelineProperties.

Variable isKeyframeRule : parent -> string -> list Css.node -> bool.
Variable transformSelector : string -> option string.
Variable withRule : option (string -> list Css.node -> string * list Css.node).

Local Abbreviation visit := (walkNode isKeyframeRule transformSelector withRule).
Local Abbreviation rewritten := (rewriteRule transformSelector withRule).
Local Abbreviation transformed := (transformedSelector transformSelector).

Lemma depthAll_cons (n : Css.node) (l : list Css.node) :
  depthAll (n :: l) = Nat.max (depth n) (depthAll l).
Proof. reflexivity. Qed.

Lemma depth_rule (selector : string) (children : list Css.node) :
  depth (Rule selector children) = S (depthAll children).
Proof. reflexivity. Qed.

Lemma depth_atRule (name params : string) (children : list Css.node) :
  depth (AtRule name params children) = S (depthAll children).
Proof. reflexivity. Qed.

Lemma walkEach_total (f : Css.node -> walked Css.node) (l : list Css.node) :
  Forall (fun n => is_Some (f n)) l -> is_Some (walkEach f l).
Proof.
  induction 1 as [|n l [[n' log1] Hn] _ [[l' log2] IH]]; cbn [walkEach].
  - eexists. reflexivity.
  - rewrite Hn, IH. eexists. reflexivity.
Qed.

Lemma walkEach_inv (f : Css.node -> walked Css.node) (n : Css.node)
    (l result : list Css.node) (log : list hooked) :
  walkEach f (n :: l) = Some (result, log) ->
  exists n' log1 l' log2,
    f n = Some (n', log1) /\ walkEach f l = Some (l', log2)
    /\ result = n' :: l' /\ log = log1 ++ log2.
Proof.
  cbn [walkEach]. destruct (f n) as [[n' log1]|]; [|discriminate].
  destruct (walkEach f l) as [[l' log2]|]; [|discriminate].
  intros [= <- <-]. exists n', log1, l', log2. auto.
Qed.

Lemma walkEach_length (f : Css.node -> walked Css.node)
    (l result : list Css.node) (log : list hooked) :
  walkEach f l = Some (result, log) -> List.length result = List.length l.
Proof.
  revert result log. induction l as [|n l IH]; intros result log H.
  - injection H as <- <-. reflexivity.
  - apply walkEach_inv in H as (n' & log1 & l' & log2 & _ & Hl & -> & _).
    cbn [List.length]. f_equal. exact (IH _ _ Hl).
Qed.

Lemma walkEach_lookup (f : Css.node -> walked Css.node)
    (l result : list Css.node) (log : list hooked) (i : nat) (n : Css.node) :
  walkEach f l = Some (result, log) -> l !! i = Some n ->
  exists n' log', f n = Some (n', log') /\ result !! i = Some n'.
Proof.
  revert result log i. induction l as [|m l IH]; intros result log i H Hi; [discriminate|].
  apply walkEach_inv in H as (m' & log1 & l' & log2 & Hm & Hl & -> & _).
  destruct i as [|i].
  - injection Hi as <-. exists m', log1. auto.
  - exact (IH _ _ _ Hl Hi).
Qed.

Lemma depthAll_Forall (l : list Css.node) (k : nat) :
  (depthAll l <= k)%nat -> Forall (fun n => (depth n <= k)%nat) l.
Proof.
  induction l as [|n l IH]; intros H; constructor; rewrite depthAll_cons in H.
  - lia.
  - apply IH. lia.
Qed.

Lemma rewriteRule_depth (selector : string) (children : list Css.node) :
  hookBounded withRule -> (depthAll (rewritten selector children).1.2 <= depthAll children)%nat.
Proof.
  intros Hhook. unfold rewriteRule. destruct withRule as [hook|] eqn:E; [|apply Nat.le_refl].
  specialize (Hhook hook eq_refl (transformed selector) children).
  destruct (hook _ children) as [selector' children']. exact Hhook.
Qed.

Lemma walkEach_enough (fuel : nat) (up : parent) (l : list Css.node) :
  (forall up n, (depth n <= fuel)%nat -> is_Some (visit fuel up n)) ->
  (depthAll l <= fuel)%nat -> is_Some (walkEach (visit fuel up) l).
Proof.
  intros IH Hl. apply walkEach_total.
  eapply Forall_impl; [apply depthAll_Forall, Hl|]. intros n Hn. apply IH, Hn.
Qed.

(** A bound that covers the nesting is enough for the walk to finish. *)
Lemma walkNode_enough (fuel : nat) :
  hookBounded withRule ->
  forall up n, (depth n <= fuel)%nat -> is_Some (visit fuel up n).
Proof.
  intros Hhook. induction fuel as [|fuel IH]; intros up [sel ch|nm ps ch|p v|t] Hn;
    try (eexists; reflexivity); try (simpl in Hn; lia).
  - rewrite depth_rule in Hn. cbn [walkNode].
    destruct (isKeyframeRule up sel ch).
    + destruct (walkEach_enough fuel (ParentRule sel) ch IH) as [[ch' log] ->]; [lia|].
      eexists. reflexivity.
    + pose proof (rewriteRule_depth sel ch Hhook) as Hd.
      destruct (rewritten sel ch) as [[sel1 ch1] log0]. cbn [fst snd] in Hd.
      destruct (walkEach_enough fuel (ParentRule sel1) ch1 IH) as [[ch' log] ->]; [lia|].
      eexists. reflexivity.
  - rewrite depth_atRule in Hn. cbn [walkNode].
    destruct (walkEach_enough fuel (ParentAtRule nm ps) ch IH) as [[ch' log] ->]; [lia|].
    eexists. reflexivity.
Qed.

Lemma walkEach_map (f : Css.node -> walked Css.node) (g : Css.node -> Css.node)
    (l : list Css.node) :
  Forall (fun n => f n = Some (g n, [])) l -> walkEach f l = Some (map g l, []).
Proof.
  induction 1 as [|n l Hn _ IH]; [reflexivity|].
  cbn [walkEach map]. rewrite Hn, IH. reflexivity.
Qed.

(** Without a hook the bounded walk is the recursion on the tree, as soon as
    the bound covers the nesting, and no hook call is recorded. *)
Lemma walkNode_without_hook (fuel : nat) (up : parent) (n : Css.node) :
  (depth n <= fuel)%nat ->
  walkNode isKeyframeRule transformSelector None fuel up n
  = Some (rewriteRules isKeyframeRule transformSelector up n, []).
Proof.
  revert up n. induction fuel as [|fuel IH]; intros up [sel ch|nm ps ch|p v|t] Hn;
    try reflexivity; try (simpl in Hn; lia).
  - rewrite depth_rule in Hn. cbn [walkNode rewriteRules rewriteRule].
    destruct (isKeyframeRule up sel ch).
    + rewrite (walkEach_map _ (rewriteRules isKeyframeRule transformSelector (ParentRule sel))).
      * reflexivity.
      * eapply Forall_impl; [apply (depthAll_Forall ch fuel); lia|]. intros n Hd. apply IH, Hd.
    + rewrite (walkEach_map _ (rewriteRules isKeyframeRule transformSelector
                                 (ParentRule (transformed sel)))).
      * reflexivity.
      * eapply Forall_impl; [apply (depthAll_Forall ch fuel); lia|]. intros n Hd. apply IH, Hd.
  - rewrite depth_atRule in Hn. cbn [walkNode rewriteRules].
    rewrite (walkEach_map _ (rewriteRules isKeyframeRule transformSelector
                               (ParentAtRule nm ps))).
    + reflexivity.
    + eapply Forall_impl; [apply (depthAll_Forall ch fuel); lia|]. intros n Hd. apply IH, Hd.
Qed.

(** C7, as the code has it: a rule that [isKeyframeRule] recognizes keeps
    its selector and is not given to the hook (the record of hook calls is
    the one of the walk below it); any other rule has its selector cut at
    every comma that does not follow a backslash, inside parentheses as
    well as outside: the pieces, joined by commas, are the selector, there
    is one more of them than there are such commas, and none holds one.
    Each piece is transformed by itself (an answer [null] counts as the
    empty text), the answers are joined by commas, and the rule is given to
    the hook, when there is one, with that selector. *)
Theorem walkRules_skips_keyframe_rules
    (fuel : nat) (up : parent) (selector : string) (children : list Css.node) :
  hookBounded withRule ->
  (depthAll children <= fuel)%nat ->
  exists node' log,
    visit (S fuel) up (Rule selector children) = Some (node', log)
    /\ if isKeyframeRule up selector children then
         exists children',
           node' = Rule selector children'
           /\ walkEach (visit fuel (ParentRule selector)) children = Some (children', log)
       else
         exists pieces selector',
           join pieces "," = selector
           /\ List.length pieces = S (unescapedCommas None selector)
           /\ Forall (fun piece => unescapedCommas None piece = 0%nat) pieces
           /\ selector'
              = join (map (fun piece => default "" (transformSelector piece)) pieces) ","
           /\ match withRule with
              | None =>
                  exists children',
                    node' = Rule selector' children'
                    /\ walkEach (visit fuel (ParentRule selector')) children
                       = Some (children', log)
              | Some hook =>
                  exists children' log',
                    node' = Rule (hook selector' children).1 children'
                    /\ log = (selector', children) :: log'
                    /\ walkEach (visit fuel (ParentRule (hook selector' children).1))
                         (hook selector' children).2
                       = Some (children', log')
              end.
Proof.
  intros Hhook Hfuel. cbn [walkNode].
  assert (Hall : forall up' l, (depthAll l <= fuel)%nat ->
                               is_Some (walkEach (visit fuel up') l)).
  { intros up' l Hl. apply walkEach_enough; [apply walkNode_enough, Hhook|exact Hl]. }
  pose proof (rewriteRule_depth selector children Hhook) as Hd.
  destruct (isKeyframeRule up selector children).
  - destruct (Hall (ParentRule selector) children Hfuel) as [[children' log] E].
    rewrite E. exists (Rule selector children'), log. split; [reflexivity|].
    exists children'. auto.
  - assert (Hpieces :
      join (splitByNotEscapedCommas selector) "," = selector
      /\ List.length (splitByNotEscapedCommas selector) = S (unescapedCommas None selector)
      /\ Forall (fun piece => unescapedCommas None piece = 0%nat)
           (splitByNotEscapedCommas selector)).
    { split.
      - unfold join, splitByNotEscapedCommas. rewrite splitLoop_join. reflexivity.
      - destruct (splitLoop_pieces selector None [] "") as [Hnone Hlen];
          [discriminate|reflexivity|constructor|].
        split; [exact Hlen|exact Hnone]. }
    destruct Hpieces as (Hjoin & Hlen & Hnone).
    unfold rewriteRule in *. fold (transformed selector) in *.
    destruct withRule as [hook|].
    + destruct (hook (transformed selector) children) as [selector1 children1] eqn:Ehook.
      cbn [fst snd] in *.
      destruct (Hall (ParentRule selector1) children1) as [[children' log] E]; [lia|].
      rewrite E. eexists _, _. split; [reflexivity|].
      exists (splitByNotEscapedCommas selector), (transformed selector).
      split; [exact Hjoin|]. split; [exact Hlen|]. split; [exact Hnone|].
      split; [reflexivity|]. rewrite Ehook. cbn [fst snd].
      exists children', log. auto.
    + destruct (Hall (ParentRule (transformed selector)) children Hfuel)
        as [[children' log] E].
      rewrite E. eexists _, _. split; [reflexivity|].
      exists (splitByNotEscapedCommas selector), (transformed selector).
      split; [exact Hjoin|]. split; [exact Hlen|]. split; [exact Hnone|].
      split; [reflexivity|]. exists children'. auto.
Qed.

(** C6: with a [wrap] option the container ends with one child, the at-rule
    that [wrap] made, and that at-rule holds, behind what it held already,
    every former child of the container in its place, as the walk over the
    rules left it: the wrapping comes after the rewriting. *)
Theorem transformAllSelectors_wraps
    (fuel : nat) (wrapper : atRule) (container : list Css.node) :
  hookBounded withRule ->
  (depthAll container <= fuel)%nat ->
  exists nodes' log,
    transformAllSelectors isKeyframeRule transformSelector withRule fuel None container
    = Some (nodes', log)
    /\ transformAllSelectors isKeyframeRule transformSelector withRule fuel
         (Some wrapper) container
       = Some ([AtRule (name wrapper) (params wrapper) (nodes wrapper ++ nodes')], log)
    /\ List.length nodes' = List.length container
    /\ forall i n, container !! i = Some n ->
       exists n' log',
         visit fuel ParentRoot n = Some (n', log')
         /\ (nodes wrapper ++ nodes') !! (List.length (nodes wrapper) + i)%nat = Some n'.
Proof.
  intros Hhook Hfuel. unfold transformAllSelectors, walkRules.
  destruct (walkEach_enough fuel ParentRoot container (walkNode_enough fuel Hhook) Hfuel)
    as [[nodes' log] E].
  rewrite E. exists nodes', log. cbn.
  split; [reflexivity|]. split; [reflexivity|].
  split; [exact (walkEach_length _ _ _ _ E)|].
  intros i n Hi. destruct (walkEach_lookup _ _ _ _ _ _ E Hi) as (n' & log' & Hn & Hres).
  exists n', log'. split; [exact Hn|].
  rewrite lookup_app_r by lia.
  replace (List.length (nodes wrapper) + i - List.length (nodes wrapper))%nat with i by lia.
  exact Hres.
Qed.

End PipelineProperties.

Lemma withContent_bounded : hookBounded (Some withContent).
Proof. intros hook [= <-] selector children. apply Nat.le_refl. Qed.

Example transformAllSelectors_ex :
  transformAllSelectors underKeyframes scoped (Some withContent) 2
    (Some {| name := "media"; params := "print"; nodes := [] |})
    [Rule ".a,.b\,c" [Decl "color" "red"];
     AtRule "keyframes" "spin" [Rule "50%" [Decl "opacity" "0"]]]
  = Some ([AtRule "media" "print"
             [Rule ".dark .a,.dark .b\,c" [Decl "content" "none"; Decl "color" "red"];
              AtRule "keyframes" "spin" [Rule "50%" [Decl "opacity" "0"]]]],
          [(".dark .a,.dark .b\,c", [Decl "color" "red"])]).
Proof. vm_compute. reflexivity. Qed.

(** C7 fails as stated at a selector with a comma inside parentheses: the
    specification's split leaves [.x:is(.a,.b)] in one piece, the code cuts
    it in two and transforms each. *)
Lemma walkRules_cuts_inside_parentheses :
  splitTopLevelCommas ".x:is(.a,.b)" = [".x:is(.a,.b)"]
  /\ splitByNotEscapedCommas ".x:is(.a,.b)" = [".x:is(.a"; ".b)"]
  /\ walkNode underKeyframes scoped None 1 ParentRoot (Rule ".x:is(.a,.b)" [])
     = Some (Rule ".dark .x:is(.a,.dark .b)" [], [])
  /\ join (map (fun piece => default "" (scoped piece)) (splitTopLevelCommas ".x:is(.a,.b)"))
       ","
     = ".dark .x:is(.a,.b)"
  /\ ".dark .x:is(.a,.dark .b)"
     <> join (map (fun piece => default "" (scoped piece))
                (splitTopLevelCommas ".x:is(.a,.b)")) ",".
Proof. vm_compute. repeat split. discriminate. Qed.

(** C7 at a percentage rule under a keyframes at-rule and at a rule with two
    pieces, one with an escaped comma in it, both with a hook set. *)
Lemma walkRules_skips_keyframe_rules_witness :
  (exists node' log,
     walkNode underKeyframes scoped (Some withContent) 1
       (ParentAtRule "keyframes" "spin") (Rule "50%" [Decl "opacity" "0"])
     = Some (node', log)
     /\ exists children',
          node' = Rule "50%" children'
          /\ walkEach (walkNode underKeyframes scoped (Some withContent) 0 (ParentRule "50%"))
               [Decl "opacity" "0"]
             = Some (children', log))
  /\ (exists node' log,
        walkNode underKeyframes scoped (Some withContent) 1 ParentRoot
          (Rule ".a,.b\,c" [Decl "color" "red"])
        = Some (node', log)
        /\ exists pieces selector',
             join pieces "," = ".a,.b\,c"
             /\ List.length pieces = 2%nat
             /\ Forall (fun piece => unescapedCommas None piece = 0%nat) pieces
             /\ selector' = join (map (fun piece => default "" (scoped piece)) pieces) ","
             /\ exists children' log',
                  node' = Rule (withContent selector' [Decl "color" "red"]).1 children'
                  /\ log = (selector', [Decl "color" "red"]) :: log'
                  /\ walkEach
                       (walkNode underKeyframes scoped (Some withContent) 0
                          (ParentRule (withContent selector' [Decl "color" "red"]).1))
                       (withContent selector' [Decl "color" "red"]).2
                     = Some (children', log')).
Proof.
  split.
  - apply (walkRules_skips_keyframe_rules underKeyframes scoped (Some withContent)
             0 (ParentAtRule "keyframes" "spin") "50%" [Decl "opacity" "0"]).
    + exact withContent_bounded.
    + simpl. lia.
  - apply (walkRules_skips_keyframe_rules underKeyframes scoped (Some withContent)
             0 ParentRoot ".a,.b\,c" [Decl "color" "red"]).
    + exact withContent_bounded.
    + simpl. lia.
Defined.

(** C6 at a container with one rule, wrapped into a media at-rule. *)
Lemma transformAllSelectors_wraps_witness :
  exists nodes' log,
    transformAllSelectors underKeyframes scoped (Some withContent) 1 None
      [Rule ".a" [Decl "color" "red"]]
    = Some (nodes', log)
    /\ transformAllSelectors underKeyframes scoped (Some withContent) 1
         (Some {| name := "media"; params := "print"; nodes := [] |})
         [Rule ".a" [Decl "color" "red"]]
       = Some ([AtRule "media" "print" ([] ++ nodes')], log)
    /\ List.length nodes' = 1%nat
    /\ forall i n, [Rule ".a" [Decl "color" "red"]] !! i = Some n ->
       exists n' log',
         walkNode underKeyframes scoped (Some withContent) 1 ParentRoot n = Some (n', log')
         /\ ([] ++ nodes') !! (0 + i)%nat = Some n'.
Proof.
  apply (transformAllSelectors_wraps underKeyframes scoped (Some withContent) 1
           {| name := "media"; params := "print"; nodes := [] |}
           [Rule ".a" [Decl "color" "red"]]).
  - exact withContent_bounded.
  - simpl. lia.
Defined.

(** ** Facts about brackets and separators *)

Section ModifierFacts.

Lemma drop_app_length (a b : string) : drop (String.length a) (a +:+ b) = b.
Proof. induction a as [|c a IH]; [destruct b; reflexivity|]. rewrite app_cons. exact IH. Qed.

Lemma endsWith_app (s p : string) : endsWith (s +:+ p) p = true.
Proof.
  unfold endsWith. rewrite length_app'. apply andb_true_iff. split.
  - apply Nat.leb_le. lia.
  - apply bool_decide_eq_true.
    replace (String.length s + String.length p - String.length p)%nat
      with (String.length s) by lia.
    apply drop_app_length.
Qed.

Lemma endsWith_other (s : string) (c d : ascii) :
  c <> d -> endsWith (s +:+ String c "") (String d "") = false.
Proof.
  intros Hcd. unfold endsWith. rewrite length_app'. apply andb_false_iff. right.
  apply bool_decide_eq_false.
  replace (String.length s + String.length (String c "") - String.length (String d ""))%nat
    with (String.length s) by (simpl; lia).
  rewrite drop_app_length. congruence.
Qed.

Lemma isArbitraryValue_brackets (x : string) : isArbitraryValue ("[" +:+ x +:+ "]") = true.
Proof.
  unfold isArbitraryValue. apply andb_true_iff. split.
  - unfold startsWith. apply (prefix_app_same "[").
  - rewrite <- app_assoc'. apply endsWith_app.
Qed.

Lemma slice_brackets (x : string) : slice ("[" +:+ x +:+ "]") 1 (-1) = x.
Proof.
  unfold slice, clampIndex. rewrite !len_app. pose proof (len_nonneg x).
  change (len "[") with 1. change (len "]") with 1.
  replace (1 <? 0) with false by reflexivity. replace (-1 <? 0) with true by reflexivity.
  rewrite Z.min_l, Z.max_l by lia.
  replace (Z.to_nat 1) with (String.length "[" + 0)%nat by reflexivity.
  replace (Z.to_nat (1 + (len x + 1) + -1 - 1)) with (String.length x) by (unfold len; lia).
  rewrite substring_app_skip. apply substring_app_head.
Qed.

Lemma scan_first_separator (c : ascii) (a b : string) :
  occurs c a = false -> indexOf (a +:+ String c b) (String c "") 0 = len a.
Proof. intros H. rewrite indexOf_zero, scan_char_first by assumption. lia. Qed.

Lemma splitAtFirst_colon (prefix rest : string) :
  occurs ":" prefix = false ->
  splitAtFirst (prefix +:+ ":" +:+ rest) ":" = (Some prefix, rest).
Proof.
  intros H. unfold splitAtFirst.
  change (":" +:+ rest) with (String ":" rest). rewrite scan_first_separator by assumption.
  pose proof (len_nonneg prefix).
  destruct (len prefix =? -1) eqn:E; [lia|].
  rewrite slice_head by reflexivity.
  change (String ":" rest) with (":" +:+ rest).
  rewrite <- app_assoc', sliceFrom_tail; [reflexivity|].
  rewrite len_app. reflexivity.
Qed.

Lemma scanLast_absent (c : ascii) (s : string) (i : Z) :
  occurs c s = false -> scanLast c s i = -1.
Proof.
  revert i. induction s as [|d s IH]; intros i H; [reflexivity|].
  simpl in H. apply orb_false_iff in H as [Hd Hs].
  cbn [scanLast]. rewrite IH by assumption. cbn. rewrite Hd. reflexivity.
Qed.

Lemma scanLast_separator (c : ascii) (a b : string) (i : Z) :
  0 <= i -> occurs c b = false -> scanLast c (a +:+ String c b) i = i + len a.
Proof.
  intros Hi Hb. revert i Hi. induction a as [|d a IH]; intros i Hi.
  - change ("" +:+ String c b) with (String c b). cbn [scanLast].
    rewrite scanLast_absent by assumption. cbn. rewrite Ascii.eqb_refl.
    unfold len. simpl. lia.
  - rewrite app_cons. cbn [scanLast]. rewrite IH by lia.
    pose proof (len_nonneg a). rewrite len_cons.
    destruct (i + 1 + len a =? -1) eqn:E; lia.
Qed.

Lemma len_zero (s : string) : len s = 0 -> s = "".
Proof. destruct s; [reflexivity|]. rewrite len_cons. pose proof (len_nonneg s). lia. Qed.

Lemma splitAlpha_suffix (base alpha : string) :
  occurs "/" alpha = false -> alpha <> "" ->
  splitAlpha (base +:+ "/" +:+ alpha) = (base, Some alpha).
Proof.
  intros Hslash Hne. unfold splitAlpha, lastIndexOf.
  change ("/" +:+ alpha) with (String "/" alpha).
  rewrite scanLast_separator by (assumption || lia).
  pose proof (len_nonneg base). pose proof (len_nonneg alpha).
  rewrite len_app, len_cons.
  destruct (0 + len base =? -1) eqn:E1; [lia|].
  destruct (0 + len base =? len base + (1 + len alpha) - 1) eqn:E2.
  { exfalso. apply Hne, len_zero. lia. }
  cbn [orb]. rewrite slice_head by lia.
  change (String "/" alpha) with ("/" +:+ alpha).
  rewrite <- app_assoc', sliceFrom_tail; [reflexivity|].
  rewrite len_app. change (len "/") with 1. lia.
Qed.

Lemma splitAlpha_trailing (base : string) :
  splitAlpha (base +:+ "/") = (base +:+ "/", None).
Proof.
  unfold splitAlpha, lastIndexOf. rewrite scanLast_separator by (reflexivity || lia).
  rewrite len_app. change (len "/") with 1.
  replace (0 + len base =? len base + 1 - 1) with true by (symmetry; apply Z.eqb_eq; lia).
  rewrite orb_true_r. reflexivity.
Qed.

End ModifierFacts.

(** ** Value resolution *)

Section ResolverProperties.

Variable dt : dataTypes.t.
Variable withAlphaValue : Js.value -> Js.value -> option Js.value.

Local Abbreviation typeMap' := (typeMap dt withAlphaValue).
Local Abbreviation coerce := (coerceValue dt withAlphaValue).

(** No member of [Object.prototype] has a name with a bracket or a slash in
    it: under such a key an object has what it owns and nothing else. *)
Lemma inherited_occurs (c : ascii) (key : string) :
  Forall (fun name => occurs c name = false) Js.objectPrototype ->
  occurs c key = true ->
  Js.inherited key = None.
Proof.
  intros Hnames Hkey. unfold Js.inherited. rewrite bool_decide_eq_false_2; [reflexivity|].
  intros Hin. rewrite Forall_forall in Hnames. rewrite (Hnames key Hin) in Hkey.
  discriminate.
Qed.

Lemma getProperty_own (object : gmap string Js.value) (key : string) (v : Js.value) :
  object !! key = Some v -> Js.getProperty object key = Some v.
Proof. intros H. unfold Js.getProperty. rewrite H. reflexivity. Qed.

Lemma getProperty_bracket (object : gmap string Js.value) (x : string) :
  Js.getProperty object ("[" +:+ x) = object !! ("[" +:+ x).
Proof.
  unfold Js.getProperty. destruct (object !! ("[" +:+ x)); [reflexivity|].
  apply (inherited_occurs "["); [repeat constructor|reflexivity].
Qed.

Lemma getProperty_slash (object : gmap string Js.value) (a b : string) :
  Js.getProperty object (a +:+ "/" +:+ b) = object !! (a +:+ "/" +:+ b).
Proof.
  unfold Js.getProperty. destruct (object !! (a +:+ "/" +:+ b)); [reflexivity|].
  apply (inherited_occurs "/"); [repeat constructor|].
  rewrite occurs_app. change ("/" +:+ b) with (String "/" b). cbn [occurs].
  rewrite Ascii.eqb_refl. apply orb_true_r.
Qed.

Lemma supported_get (type : string) :
  supported dt withAlphaValue type = true ->
  exists f, typeMapGet typeMap' type = Some f.
Proof.
  unfold supported. intros H. apply bool_decide_eq_true in H.
  unfold supportedTypes in H. cbn [typeMap map fst] in H.
  repeat (apply elem_of_cons in H as [->|H]); try (eexists; reflexivity).
  apply elem_of_nil in H. contradiction.
Qed.

Lemma supported_no_colon (type : string) :
  supported dt withAlphaValue type = true -> occurs ":" type = false.
Proof.
  unfold supported. intros H. apply bool_decide_eq_true in H.
  unfold supportedTypes in H. cbn [typeMap map fst] in H.
  repeat (apply elem_of_cons in H as [->|H]); try reflexivity.
  apply elem_of_nil in H. contradiction.
Qed.


Lemma scan_char_absent (c : ascii) (s : string) (i : Z) :
  occurs c s = false -> scan (String c "") s i = -1.
Proof.
  revert i. induction s as [|d s IH]; intros i H; [reflexivity|].
  simpl in H. apply orb_false_iff in H as [Hd Hs]. cbn [scan String.prefix].
  destruct (ascii_dec c d) as [->|_]; [rewrite Ascii.eqb_refl in Hd; discriminate|].
  apply IH, Hs.
Qed.

Lemma occurs_substring (c : ascii) (s : string) (n m : nat) :
  occurs c s = false -> occurs c (String.substring n m s) = false.
Proof.
  revert n m. induction s as [|d s IH]; intros n m H.
  - destruct n, m; reflexivity.
  - simpl in H. apply orb_false_iff in H as [Hd Hs].
    destruct n as [|n]; destruct m as [|m]; cbn [String.substring occurs]; auto.
    rewrite Hd. cbn [orb]. auto.
Qed.

Lemma splitAtFirst_absent (c : ascii) (s : string) :
  occurs c s = false -> splitAtFirst s (String c "") = (None, s).
Proof.
  intros H. unfold splitAtFirst. rewrite indexOf_zero, scan_char_absent by assumption.
  reflexivity.
Qed.


Lemma asValue_brackets (x : string) (values : gmap string Js.value)
    (validate : option (string -> bool)) :
  asValue dt ("[" +:+ x +:+ "]") values validate
  = match values !! ("[" +:+ x +:+ "]") with
    | Some value => Some value
    | None =>
        if default (fun _ => true) validate x
        then Some (Js.Text (dataTypes.normalize dt x))
        else None
    end.
Proof.
  unfold asValue. rewrite getProperty_bracket.
  destruct (values !! ("[" +:+ x +:+ "]")); [reflexivity|].
  rewrite isArbitraryValue_brackets, slice_brackets. cbn [negb].
  destruct (default (fun _ => true) validate x); reflexivity.
Qed.

(** What [coerceValue] does with a bracketed modifier that has a colon. *)
Lemma coerceValue_bracketed
    (types : list string) (prefix rest : string)
    (values : gmap string Js.value) (tailwindConfig : config) :
  occurs ":" prefix = false ->
  coerce types ("[" +:+ (prefix +:+ ":" +:+ rest) +:+ "]") values tailwindConfig
  = if supported dt withAlphaValue prefix then
      if bool_decide (rest = "") then
        firstMatching dt withAlphaValue types ("[" +:+ (prefix +:+ ":" +:+ rest) +:+ "]")
          values tailwindConfig
      else
        Return (Pair (match values !! ("[" +:+ rest +:+ "]") with
                      | Some value => Some value
                      | None =>
                          if default (fun _ => true) (validate tailwindConfig) rest
                          then Some (Js.Text (dataTypes.normalize dt rest))
                          else None
                      end) prefix)
    else Return Empty.
Proof.
  intros Hprefix. unfold coerceValue.
  rewrite isArbitraryValue_brackets, slice_brackets, splitAtFirst_colon by assumption.
  destruct (supported dt withAlphaValue prefix); [|reflexivity]. cbn [negb].
  case_bool_decide as Hrest.
  - subst rest. reflexivity.
  - assert (Hlen : (0 <? len rest) = true).
    { apply Z.ltb_lt. pose proof (len_nonneg rest).
      destruct (Z.eq_dec (len rest) 0) as [E|E]; [|lia].
      apply len_zero in E. contradiction. }
    rewrite Hlen, asValue_brackets. reflexivity.
Qed.

(** C8, as the code has it: for a bracketed modifier with a colon, a text
    before the first colon that is no supported kind makes the resolution
    end with the empty result, whatever kinds the caller listed.  When it is
    a supported kind and something follows the colon, the remainder is put
    in brackets again and resolved as [asValue] does with the options the
    configuration object supplies, and the result is paired with that kind:
    an entry of the theme table under the bracketed remainder is returned as
    it stands, and otherwise the remainder is normalized, after the
    validator of the options (one that accepts everything when the options
    name none) has passed it; the kinds the caller listed are not tried.
    Only when nothing follows the colon are the listed kinds tried on the
    whole modifier. *)
Theorem coerceValue_explicit_type
    (types : list string) (prefix rest : string)
    (values : gmap string Js.value) (tailwindConfig : config) :
  occurs ":" prefix = false ->
  coerce types ("[" +:+ (prefix +:+ ":" +:+ rest) +:+ "]") values tailwindConfig
  = if supported dt withAlphaValue prefix then
      if bool_decide (rest = "") then
        firstMatching dt withAlphaValue types ("[" +:+ (prefix +:+ ":" +:+ rest) +:+ "]")
          values tailwindConfig
      else
        Return (Pair (match values !! ("[" +:+ rest +:+ "]") with
                      | Some value => Some value
                      | None =>
                          if default (fun _ => true) (validate tailwindConfig) rest
                          then Some (Js.Text (dataTypes.normalize dt rest))
                          else None
                      end) prefix)
    else Return Empty.
Proof. apply coerceValue_bracketed. Qed.

(** The specification's reading of C8 holds where the theme table has no
    entry under the bracketed remainder and the options name no validator. *)
Corollary coerceValue_explicit_type_plain
    (types : list string) (prefix rest : string)
    (values : gmap string Js.value) (tailwindConfig : config) :
  supported dt withAlphaValue prefix = true ->
  rest <> "" ->
  values !! ("[" +:+ rest +:+ "]") = None ->
  validate tailwindConfig = None ->
  coerce types ("[" +:+ (prefix +:+ ":" +:+ rest) +:+ "]") values tailwindConfig
  = Return (Pair (Some (Js.Text (dataTypes.normalize dt rest))) prefix).
Proof.
  intros Hsup Hrest Hkey Hvalidate.
  rewrite coerceValue_bracketed by (apply supported_no_colon, Hsup).
  rewrite Hsup, Hkey, Hvalidate, bool_decide_eq_false_2 by assumption. reflexivity.
Qed.

Lemma asColor_trailing_slash
    (base : string) (lookup : gmap string Js.value) (tailwindConfig : config) :
  lookup !! (base +:+ "/") = None ->
  asColor dt withAlphaValue (base +:+ "/") lookup tailwindConfig = None.
Proof.
  intros Hwhole.
  assert (Hget : Js.getProperty lookup (base +:+ "/") = None).
  { rewrite <- Hwhole. exact (getProperty_slash lookup base ""). }
  unfold asColor. rewrite Hget, splitAlpha_trailing, Hget.
  unfold asValue. rewrite Hget. unfold isArbitraryValue.
  rewrite endsWith_other by discriminate. rewrite andb_false_r. reflexivity.
Qed.

(** C9, as the code has it: when the part before the last slash is a key of
    the theme table and the whole modifier is not (a key under the whole
    modifier is answered first), an alpha part that is no bracketed value,
    not the name of a member of [Object.prototype], and no key of the
    opacity scale of the theme makes [asColor] answer with nothing, not with
    the base color; an alpha part that is a key of that scale composes the
    base color with the scale's value for it. *)
Theorem asColor_alpha_suffix
    (base alpha : string) (color : Js.value) (lookup : gmap string Js.value)
    (tailwindConfig : config) :
  lookup !! (base +:+ "/" +:+ alpha) = None ->
  lookup !! base = Some color ->
  occurs "/" alpha = false ->
  alpha <> "" ->
  isArbitraryValue alpha = false ->
  alpha ∉ Js.objectPrototype ->
  asColor dt withAlphaValue (base +:+ "/" +:+ alpha) lookup tailwindConfig
  = match scale ← (th ← theme tailwindConfig; opacity th); scale !! alpha with
    | Some opacity => withAlphaValue color opacity
    | None => None
    end.
Proof.
  intros Hwhole Hbase Hslash Hne Hplain Hproto. unfold asColor.
  rewrite getProperty_slash, Hwhole, splitAlpha_suffix by assumption.
  rewrite (getProperty_own _ _ _ Hbase), Hplain.
  unfold themeOpacity.
  destruct (th ← theme tailwindConfig; opacity th) as [scale|]; [|reflexivity].
  cbn [mbind option_bind]. unfold Js.getProperty, Js.inherited.
  destruct (scale !! alpha) as [opacity|]; [reflexivity|].
  rewrite bool_decide_eq_false_2 by assumption. reflexivity.
Qed.

End ResolverProperties.



(** C8, at a theme table that has an entry under the bracketed remainder:
    the entry comes back, not the normalized remainder. *)
Lemma coerceValue_explicit_type_theme_entry :
  coerceValue acceptAll sideBySide ["length"] "[length:3px]" {[ "[3px]" := Js.Text "7px" ]}
    halfOpacity
  = Return (Pair (Some (Js.Text "7px")) "length")
  /\ coerceValue acceptAll sideBySide ["length"] "[length:3px]"
       {[ "[3px]" := Js.Text "7px" ]} halfOpacity
     <> Return (Pair (Some (Js.Text (dataTypes.normalize acceptAll "3px"))) "length").
Proof. vm_compute. split; [reflexivity|discriminate]. Qed.

(** C8 at [[length:3px]] with an empty theme table. *)
Lemma coerceValue_explicit_type_witness :
  coerceValue acceptAll sideBySide ["color"] ("[" +:+ ("length" +:+ ":" +:+ "3px") +:+ "]")
    ∅ halfOpacity
  = Return (Pair (Some (Js.Text "3px")) "length").
Proof.
  exact (coerceValue_explicit_type acceptAll sideBySide ["color"] "length" "3px" ∅ halfOpacity
           eq_refl).
Defined.

Example coerceValue_explicit_ex :
  coerceValue acceptAll sideBySide ["color"; "length"] "[length:3px]" ∅ halfOpacity
  = Return (Pair (Some (Js.Text "3px")) "length")
  /\ coerceValue acceptAll sideBySide ["color"; "length"] "[lengthy:3px]" ∅ halfOpacity
     = Return Empty.
Proof. vm_compute. split; reflexivity. Qed.

(** C9 fails as stated at two inputs.  At [red-500/60], where [60] is no
    key of the opacity scale and the table has an entry under the whole
    modifier, that entry is the answer.  At [red-500/toString], where
    [toString] is neither bracketed nor a key of the scale, the scale finds
    the member it inherits under that name and the color is composed with
    it. *)
Lemma asColor_alpha_suffix_not_absent :
  (themeOpacity halfOpacity "60" = None
   /\ asColor acceptAll sideBySide "red-500/60"
        {[ "red-500" := Js.Text "rgb(239 68 68)"; "red-500/60" := Js.Text "#123" ]}
        halfOpacity
      = Some (Js.Text "#123"))
  /\ (({[ "50" := Js.Text "0.5" ]} : gmap string Js.value) !! "toString" = None
      /\ isArbitraryValue "toString" = false
      /\ asColor acceptAll sideBySide "red-500/toString"
           {[ "red-500" := Js.Text "rgb(239 68 68)" ]} halfOpacity
         = sideBySide (Js.Text "rgb(239 68 68)") (Js.Ref (Js.Member "toString"))
      /\ asColor acceptAll sideBySide "red-500/toString"
           {[ "red-500" := Js.Text "rgb(239 68 68)" ]} halfOpacity
         <> None).
Proof. vm_compute. repeat split; discriminate. Qed.

(** C9 at [red-500/50] with the opacity scale that maps [50] to [0.5]. *)
Lemma asColor_alpha_suffix_witness :
  asColor acceptAll sideBySide ("red-500" +:+ "/" +:+ "50")
    {[ "red-500" := Js.Text "rgb(239 68 68)" ]} halfOpacity
  = sideBySide (Js.Text "rgb(239 68 68)") (Js.Text "0.5").
Proof.
  apply (asColor_alpha_suffix acceptAll sideBySide "red-500" "50" (Js.Text "rgb(239 68 68)")
           {[ "red-500" := Js.Text "rgb(239 68 68)" ]} halfOpacity).
  - vm_compute. reflexivity.
  - vm_compute. reflexivity.
  - reflexivity.
  - discriminate.
  - reflexivity.
  - apply (bool_decide_eq_false_1 _). vm_compute. reflexivity.
Defined.

Example asColor_ex :
  asColor acceptAll sideBySide "red-500/50" {[ "red-500" := Js.Text "rgb(239 68 68)" ]}
    halfOpacity
  = Some (Js.Text "rgb(239 68 68) / 0.5")
  /\ asColor acceptAll sideBySide "red-500/60" {[ "red-500" := Js.Text "rgb(239 68 68)" ]}
       halfOpacity
     = None.
Proof. vm_compute. split; reflexivity. Qed.

(** * Further properties of the sources *)

(** ** The splitting helpers of the value resolvers *)

Section SplittingHelpers.

Lemma substring_drop (n : nat) (s : string) : String.substring 0 n s +:+ drop n s = s.
Proof.
  revert s. induction n as [|n IH]; intros [|c s]; try reflexivity.
  cbn [String.substring drop]. rewrite app_cons, IH. reflexivity.
Qed.

Lemma endsWith_inv (s p : string) : endsWith s p = true -> exists x, s = x +:+ p.
Proof.
  unfold endsWith. intros H. apply andb_true_iff in H as [_ H].
  apply bool_decide_eq_true in H.
  remember (String.length s - String.length p)%nat as n eqn:Hn. clear Hn.
  exists (String.substring 0 n s). rewrite <- H. symmetry. apply substring_drop.
Qed.

Lemma scanLast_none_occurs (c : ascii) (s : string) (i : Z) :
  0 <= i -> scanLast c s i = -1 -> occurs c s = false.
Proof.
  revert i. induction s as [|d s IH]; intros i Hi; [reflexivity|].
  cbn [scanLast occurs]. destruct (scanLast c s (i + 1) =? -1) eqn:E.
  - apply Z.eqb_eq in E. destruct (Ascii.eqb d c); [lia|].
    intros _. apply (IH (i + 1)); [lia|exact E].
  - apply Z.eqb_neq in E. intros H. contradiction.
Qed.

Lemma scanLast_found (c : ascii) (s : string) (i k : Z) :
  0 <= i -> scanLast c s i = k -> k <> -1 ->
  exists a b, s = a +:+ String c b /\ k = i + len a /\ occurs c b = false.
Proof.
  revert i. induction s as [|d s IH]; intros i Hi; cbn [scanLast]; [congruence|].
  destruct (scanLast c s (i + 1) =? -1) eqn:E.
  - apply Z.eqb_eq in E. destruct (Ascii.eqb d c) eqn:Ed; [|congruence].
    apply Ascii.eqb_eq in Ed as ->. intros <- _.
    exists "", s. split; [reflexivity|]. split; [change (len "") with 0; lia|].
    apply (scanLast_none_occurs c s (i + 1)); [lia|exact E].
  - intros Hk Hne. destruct (IH (i + 1) ltac:(lia) Hk Hne) as (a & b & -> & -> & Hb).
    exists (String d a), b. split; [reflexivity|]. split; [rewrite len_cons; lia|exact Hb].
Qed.

Lemma scan_char_found (c : ascii) (s : string) (i k : Z) :
  scan (String c "") s i = k -> k <> -1 ->
  exists a b, s = a +:+ String c b /\ k = i + len a /\ occurs c a = false.
Proof.
  revert i. induction s as [|d s IH]; intros i; cbn [scan String.prefix]; [congruence|].
  destruct (ascii_dec c d) as [<-|Hcd].
  - replace (String.prefix "" s) with true by (destruct s; reflexivity).
    intros <- _. exists "", s. split; [reflexivity|].
    split; [change (len "") with 0; lia|reflexivity].
  - intros Hk Hne. destruct (IH (i + 1) Hk Hne) as (a & b & -> & -> & Ha).
    exists (String d a), b. split; [reflexivity|]. split; [rewrite len_cons; lia|].
    cbn [occurs]. rewrite Ha, orb_false_r. apply Ascii.eqb_neq. congruence.
Qed.

Lemma scan_char_none (c : ascii) (s : string) (i : Z) :
  0 <= i -> scan (String c "") s i = -1 -> occurs c s = false.
Proof.
  intros Hi H. destruct (occurs c s) eqn:E; [|reflexivity]. exfalso.
  revert i Hi H. induction s as [|d s IH]; intros i Hi; [discriminate|].
  cbn [scan String.prefix]. destruct (ascii_dec c d) as [<-|Hcd].
  - replace (String.prefix "" s) with true by (destruct s; reflexivity). lia.
  - cbn [occurs] in E. apply orb_true_iff in E as [E|E].
    + apply Ascii.eqb_eq in E. congruence.
    + apply (IH E (i + 1)). lia.
Qed.

(** X1: when [splitAlpha] finds an alpha part, the two parts are the
    modifier cut at its last slash: joined by a slash they give the modifier
    back, the alpha part is not empty and holds no slash. *)
Theorem splitAlpha_parts (modifier color alpha : string) :
  splitAlpha modifier = (color, Some alpha) ->
  modifier = color +:+ "/" +:+ alpha /\ alpha <> "" /\ occurs "/" alpha = false.
Proof.
  unfold splitAlpha, lastIndexOf.
  destruct ((scanLast "/" modifier 0 =? -1)
            || (scanLast "/" modifier 0 =? len modifier - 1)) eqn:E; [discriminate|].
  apply orb_false_iff in E as [E1 E2]. apply Z.eqb_neq in E1. apply Z.eqb_neq in E2.
  destruct (scanLast_found "/" modifier 0 _ ltac:(lia) eq_refl E1) as (a & b & Hm & Hk & Hb).
  rewrite Hk in *. rewrite Hm in *. clear Hm Hk.
  rewrite slice_head by lia.
  change (String "/" b) with ("/" +:+ b). rewrite <- app_assoc'.
  rewrite sliceFrom_tail by (rewrite len_app; change (len "/") with 1; lia).
  intros [= <- <-]. rewrite app_assoc'. split; [reflexivity|]. split; [|exact Hb].
  intros ->. apply E2. rewrite !len_app. change (len "/") with 1. change (len "") with 0. lia.
Qed.

(** X2: [splitAlpha] reports no alpha part exactly for the modifiers that
    have no slash or end in one, and then its first part is the whole
    modifier. *)
Theorem splitAlpha_whole (modifier : string) :
  ((splitAlpha modifier).2 = None
   <-> occurs "/" modifier = false \/ endsWith modifier "/" = true)
  /\ ((splitAlpha modifier).2 = None -> (splitAlpha modifier).1 = modifier).
Proof.
  split; [split|].
  - unfold splitAlpha, lastIndexOf.
    destruct (scanLast "/" modifier 0 =? -1) eqn:E1.
    + intros _. left. apply Z.eqb_eq in E1.
      apply (scanLast_none_occurs "/" modifier 0); [lia|exact E1].
    + destruct (scanLast "/" modifier 0 =? len modifier - 1) eqn:E2; [|discriminate].
      intros _. right. apply Z.eqb_neq in E1. apply Z.eqb_eq in E2.
      destruct (scanLast_found "/" modifier 0 _ ltac:(lia) eq_refl E1)
        as (a & b & Hm & Hk & Hb).
      rewrite Hk, Hm, len_app, len_cons in E2.
      assert (b = "") as -> by (apply len_zero; lia).
      rewrite Hm. apply endsWith_app.
  - intros [H|H].
    + unfold splitAlpha, lastIndexOf. rewrite scanLast_absent by assumption. reflexivity.
    + apply endsWith_inv in H as [x ->]. rewrite splitAlpha_trailing. reflexivity.
  - unfold splitAlpha.
    destruct ((lastIndexOf modifier "/" =? -1)
              || (lastIndexOf modifier "/" =? len modifier - 1)); [reflexivity|discriminate].
Qed.

(** X3: [splitAtFirst] with a one-character delimiter cuts the input at the
    first delimiter: the part before it holds no delimiter and the two parts
    joined by the delimiter give the input back; the first part is missing
    exactly when the input holds no delimiter, and then the second part is
    the input. *)
Theorem splitAtFirst_parts (input : string) (delim : ascii) :
  (forall before behind,
     splitAtFirst input (String delim "") = (Some before, behind) ->
     input = before +:+ String delim behind /\ occurs delim before = false)
  /\ ((splitAtFirst input (String delim "")).1 = None <-> occurs delim input = false)
  /\ ((splitAtFirst input (String delim "")).1 = None ->
      (splitAtFirst input (String delim "")).2 = input).
Proof.
  unfold splitAtFirst. rewrite indexOf_zero.
  destruct (scan (String delim "") input 0 =? -1) eqn:E.
  - apply Z.eqb_eq in E. split; [discriminate|]. split; [|reflexivity].
    split; [intros _; apply (scan_char_none delim input 0); [lia|exact E]|reflexivity].
  - apply Z.eqb_neq in E.
    destruct (scan_char_found delim input 0 _ eq_refl E) as (a & b & Hm & Hk & Ha).
    rewrite Hk, Hm. clear Hm Hk E. split; [|split; [split|]]; cbn [fst snd].
    + intros before behind. rewrite slice_head by lia.
      change (String delim b) with (String delim "" +:+ b). rewrite <- app_assoc'.
      rewrite sliceFrom_tail by (rewrite len_app; unfold len at 3; simpl; lia).
      intros [= <- <-]. rewrite app_assoc'. auto.
    + discriminate.
    + rewrite occurs_app. cbn [occurs]. rewrite Ascii.eqb_refl, orb_true_r. discriminate.
    + discriminate.
Qed.

Lemma isArbitraryValue_inv (input : string) :
  isArbitraryValue input = true -> exists x, input = "[" +:+ x +:+ "]".
Proof.
  unfold isArbitraryValue, startsWith. intros H. apply andb_true_iff in H as [Hs He].
  apply endsWith_inv in He as [y ->].
  destruct y as [|c y].
  - discriminate Hs.
  - rewrite app_cons in Hs. cbn [String.prefix] in Hs.
    destruct (ascii_dec "[" c) as [<-|]; [|discriminate]. exists y. reflexivity.
Qed.

Lemma splitAtFirst_some (input before behind : string) (delim : ascii) :
  splitAtFirst input (String delim "") = (Some before, behind) ->
  input = before +:+ String delim behind /\ occurs delim before = false.
Proof.
  unfold splitAtFirst. rewrite indexOf_zero.
  destruct (scan (String delim "") input 0 =? -1) eqn:E; [discriminate|].
  apply Z.eqb_neq in E.
  destruct (scan_char_found delim input 0 _ eq_refl E) as (a & b & Hm & Hk & Ha).
  rewrite Hk, Hm. rewrite slice_head by lia.
  change (String delim b) with (String delim "" +:+ b). rewrite <- app_assoc'.
  rewrite sliceFrom_tail by (rewrite len_app; unfold len at 3; simpl; lia).
  intros [= <- <-]. rewrite app_assoc'. auto.
Qed.

(** X4: [isArbitraryValue] accepts exactly the texts that are something put
    between an opening and a closing square bracket, and [slice(1, -1)], as
    [asValue] and [coerceValue] use it, gives that something back. *)
Theorem isArbitraryValue_iff (input : string) :
  (isArbitraryValue input = true <-> exists x, input = "[" +:+ x +:+ "]")
  /\ (forall x, input = "[" +:+ x +:+ "]" -> slice input 1 (-1) = x).
Proof.
  split; [split|].
  - apply isArbitraryValue_inv.
  - intros [x ->]. apply isArbitraryValue_brackets.
  - intros x ->. apply slice_brackets.
Qed.

End SplittingHelpers.

(** X1 at [red-500/50]. *)
Lemma splitAlpha_parts_witness :
  "red-500/50" = "red-500" +:+ "/" +:+ "50" /\ "50" <> "" /\ occurs "/" "50" = false.
Proof. apply (splitAlpha_parts "red-500/50" "red-500" "50"). reflexivity. Defined.

(** ** The pieces of a selector list *)

Section Pieces.

Lemma splitLoop_single (s : string) (prev : option ascii) (chunks : list string)
    (cur : string) :
  unescapedCommas prev s = 0%nat -> splitLoop prev s chunks cur = chunks ++ [cur +:+ s].
Proof.
  revert prev chunks cur. induction s as [|c s IH]; intros prev chunks cur H;
    cbn [splitLoop unescapedCommas] in *.
  - rewrite app_empty_r. reflexivity.
  - destruct (Ascii.eqb c "," && negb (bool_decide (prev = Some "\"%char))); [lia|].
    rewrite IH by lia. rewrite app_assoc'. reflexivity.
Qed.

(** X5: [splitByNotEscapedCommas] cuts at every comma that does not follow
    a backslash and nowhere else: there is one piece more than there are
    such commas (so at least one piece), and no piece holds such a comma. *)
Theorem splitByNotEscapedCommas_pieces (str : string) :
  List.length (splitByNotEscapedCommas str) = S (unescapedCommas None str)
  /\ Forall (fun chunk => unescapedCommas None chunk = 0%nat) (splitByNotEscapedCommas str).
Proof.
  destruct (splitLoop_pieces str None [] "") as [Hall Hlen];
    [discriminate|reflexivity|constructor|].
  split; [exact Hlen|exact Hall].
Qed.

(** X6: a selector without a comma that separates is handed to the selector
    transform as one piece, and what the transform answers is the new
    selector; the answer [null] makes it the empty text. *)
Theorem transformedSelector_single
    (transformSelector : string -> option string) (selector : string) :
  unescapedCommas None selector = 0%nat ->
  splitByNotEscapedCommas selector = [selector]
  /\ transformedSelector transformSelector selector
     = default "" (transformSelector selector)
  /\ transformedSelector (fun _ => None) selector = "".
Proof.
  intros H.
  assert (E : splitByNotEscapedCommas selector = [selector]).
  { unfold splitByNotEscapedCommas. rewrite splitLoop_single by assumption. reflexivity. }
  unfold transformedSelector. rewrite E. repeat split.
Qed.

End Pieces.

(** X6 at a class with an escaped comma in its name. *)
Lemma transformedSelector_single_witness :
  splitByNotEscapedCommas ".w-\[1\,2\]" = [".w-\[1\,2\]"]
  /\ transformedSelector scoped ".w-\[1\,2\]" = default "" (scoped ".w-\[1\,2\]")
  /\ transformedSelector (fun _ => None) ".w-\[1\,2\]" = "".
Proof. apply (transformedSelector_single scoped ".w-\[1\,2\]"). reflexivity. Defined.

(** ** More on the value resolvers *)

Section ResolverResults.

Variable dt : dataTypes.t.
Variable withAlphaValue : Js.value -> Js.value -> option Js.value.

Local Abbreviation coerce := (coerceValue dt withAlphaValue).
Local Abbreviation matching := (firstMatching dt withAlphaValue).

(** X7: [asValue] answers with a value in three cases only: the modifier is
    a key of the table, and the answer is the table's value; or it is no
    key but the name of a member of [Object.prototype], and the answer is
    that member, which the table inherits; or it is neither but a bracketed
    text whose inside the validator accepts, and the answer is that inside,
    normalized. *)
Theorem asValue_some_iff (modifier : string) (lookup : gmap string Js.value)
    (validate : option (string -> bool)) (result : Js.value) :
  asValue dt modifier lookup validate = Some result
  <-> lookup !! modifier = Some result
      \/ (lookup !! modifier = None
          /\ (modifier ∈ Js.objectPrototype)
          /\ result = Js.Ref (Js.Member modifier))
      \/ (lookup !! modifier = None
          /\ exists x, modifier = "[" +:+ x +:+ "]"
                       /\ default (fun _ => true) validate x = true
                       /\ result = Js.Text (dataTypes.normalize dt x)).
Proof.
  split.
  - unfold asValue, Js.getProperty, Js.inherited.
    destruct (lookup !! modifier) as [value|] eqn:Hkey.
    + intros [= ->]. left. reflexivity.
    + case_bool_decide as Hproto.
      * intros [= <-]. right. left. auto.
      * destruct (isArbitraryValue modifier) eqn:Harb; [|discriminate]. cbn [negb].
        apply isArbitraryValue_inv in Harb as [x ->]. rewrite slice_brackets.
        destruct (default (fun _ => true) validate x) eqn:Hv; [|discriminate].
        intros [= <-]. right. right. split; [reflexivity|]. exists x. auto.
  - intros [Hkey|[(Hkey & Hproto & ->)|(Hkey & x & -> & Hv & ->)]].
    + unfold asValue. rewrite (getProperty_own _ _ _ Hkey). reflexivity.
    + unfold asValue, Js.getProperty, Js.inherited.
      rewrite Hkey, bool_decide_eq_true_2 by assumption. reflexivity.
    + rewrite asValue_brackets, Hkey, Hv. reflexivity.
Qed.

(** X8: a bracketed alpha part behind a theme color is handed to
    [withAlphaValue] as it is written between the brackets, whatever the
    configuration holds: no opacity scale is consulted and nothing validates
    or normalizes it. *)
Theorem asColor_arbitrary_alpha
    (base x : string) (color : Js.value) (lookup : gmap string Js.value)
    (tailwindConfig : config) :
  lookup !! (base +:+ "/" +:+ "[" +:+ x +:+ "]") = None ->
  lookup !! base = Some color ->
  occurs "/" x = false ->
  asColor dt withAlphaValue (base +:+ "/" +:+ "[" +:+ x +:+ "]") lookup tailwindConfig
  = withAlphaValue color (Js.Text x).
Proof.
  intros Hwhole Hbase Hx. unfold asColor. rewrite getProperty_slash, Hwhole.
  rewrite splitAlpha_suffix, (getProperty_own _ _ _ Hbase), isArbitraryValue_brackets,
    slice_brackets.
  - reflexivity.
  - rewrite occurs_app, occurs_app, Hx. reflexivity.
  - discriminate.
Qed.

Lemma splitAlpha_inv (modifier color alpha : string) :
  splitAlpha modifier = (color, Some alpha) -> modifier = color +:+ "/" +:+ alpha.
Proof.
  unfold splitAlpha, lastIndexOf.
  destruct ((scanLast "/" modifier 0 =? -1)
            || (scanLast "/" modifier 0 =? len modifier - 1)) eqn:E; [discriminate|].
  apply orb_false_iff in E as [E1 E2]. apply Z.eqb_neq in E1. apply Z.eqb_neq in E2.
  destruct (scanLast_found "/" modifier 0 _ ltac:(lia) eq_refl E1) as (a & b & Hm & Hk & Hb).
  rewrite Hk in *. rewrite Hm in *. clear Hm Hk.
  rewrite slice_head by lia.
  change (String "/" b) with ("/" +:+ b). rewrite <- app_assoc'.
  rewrite sliceFrom_tail by (rewrite len_app; change (len "/") with 1; lia).
  intros [= <- <-]. rewrite app_assoc'. reflexivity.
Qed.

(** The part of a bracketed text before its last slash starts with the
    bracket, so that a table has under it what it owns and nothing else. *)
Lemma getProperty_bracketed_base (lookup : gmap string Js.value) (x : string) :
  Js.getProperty lookup (splitAlpha ("[" +:+ x +:+ "]")).1
  = lookup !! (splitAlpha ("[" +:+ x +:+ "]")).1.
Proof.
  destruct (splitAlpha ("[" +:+ x +:+ "]")) as [color [alpha|]] eqn:E; cbn [fst].
  - apply splitAlpha_inv in E. destruct color as [|c color].
    + discriminate E.
    + rewrite app_cons in E. injection E as <- _. apply getProperty_bracket.
  - assert (color = "[" +:+ x +:+ "]") as ->.
    { unfold splitAlpha in E.
      destruct ((lastIndexOf ("[" +:+ x +:+ "]") "/" =? -1)
                || (lastIndexOf ("[" +:+ x +:+ "]") "/" =? len ("[" +:+ x +:+ "]") - 1));
        [injection E as <-; reflexivity|discriminate]. }
    apply getProperty_bracket.
Qed.

(** X13: a bracketed text that is no theme key, and whose part before its
    last slash (if it has one) is none either, is resolved by [asColor] as
    an arbitrary color: the color validator decides on the inside, slash
    included, and the normalized inside is the answer. *)
Theorem asColor_arbitrary_color
    (x : string) (lookup : gmap string Js.value) (tailwindConfig : config) :
  lookup !! ("[" +:+ x +:+ "]") = None ->
  lookup !! (splitAlpha ("[" +:+ x +:+ "]")).1 = None ->
  asColor dt withAlphaValue ("[" +:+ x +:+ "]") lookup tailwindConfig
  = if dataTypes.color dt x then Some (Js.Text (dataTypes.normalize dt x)) else None.
Proof.
  intros Hwhole Hbase. unfold asColor. rewrite getProperty_bracket, Hwhole.
  pose proof (getProperty_bracketed_base lookup x) as Hget. rewrite Hbase in Hget.
  destruct (splitAlpha ("[" +:+ x +:+ "]")) as [color alpha]. cbn [fst] in Hget.
  rewrite Hget, asValue_brackets, Hwhole. reflexivity.
Qed.

Lemma typeMapGet_entry (type : string) (f : resolver) :
  In (type, f) (typeMap dt withAlphaValue) ->
  typeMapGet (typeMap dt withAlphaValue) type = Some f.
Proof.
  unfold typeMap. cbn [In]. intros H.
  repeat (destruct H as [H|H]; [injection H as <- <-; reflexivity|]).
  contradiction.
Qed.

Lemma typeMapGet_supported (type : string) (f : resolver) :
  typeMapGet (typeMap dt withAlphaValue) type = Some f ->
  supported dt withAlphaValue type = true.
Proof.
  unfold supported. intros H. apply bool_decide_eq_true.
  unfold supportedTypes, typeMap in *. cbn [typeMapGet map fst] in *. revert H.
  repeat (case_bool_decide; [intros _; subst type; set_solver|]). discriminate.
Qed.

(** Every resolver of [typeMap] gives nothing for a modifier that is not
    bracketed and under which the table has nothing, owned or inherited,
    with a part before its last slash under which it has nothing either. *)
Lemma typeMap_unknown (type : string) (f : resolver) (modifier : string)
    (values : gmap string Js.value) (tailwindConfig : config) :
  typeMapGet (typeMap dt withAlphaValue) type = Some f ->
  isArbitraryValue modifier = false ->
  Js.getProperty values modifier = None ->
  Js.getProperty values (splitAlpha modifier).1 = None ->
  f modifier values tailwindConfig = None.
Proof.
  unfold typeMap. cbn [typeMapGet]. intros Hf Harb Hkey Hbase.
  repeat case_bool_decide; try discriminate; injection Hf as <-;
    unfold guess, asValue, asColor, asLookupValue; rewrite ?Hkey;
    try (destruct (splitAlpha modifier) as [color alpha]; cbn [fst] in Hbase;
         rewrite Hbase; unfold asValue; rewrite Hkey);
    rewrite ?Harb; reflexivity.
Qed.

Lemma coerceValue_plain (types : list string) (modifier : string)
    (values : gmap string Js.value) (tailwindConfig : config) :
  isArbitraryValue modifier = false ->
  coerce types modifier values tailwindConfig
  = matching types modifier values tailwindConfig.
Proof. intros H. unfold coerceValue. rewrite H. reflexivity. Qed.

Lemma getProperty_none (object : gmap string Js.value) (key : string) :
  object !! key = None -> key ∉ Js.objectPrototype -> Js.getProperty object key = None.
Proof.
  intros Hown Hproto. unfold Js.getProperty, Js.inherited.
  rewrite Hown, bool_decide_eq_false_2 by assumption. reflexivity.
Qed.

(** X9: a modifier that is not bracketed, that is neither a key of the
    theme table nor the name of a member of [Object.prototype], and whose
    part before its last slash is neither of the two, resolves to the empty
    result under every list of supported kinds: nothing is thrown and no
    value is made up. *)
Theorem coerceValue_unknown_modifier
    (types : list string) (modifier : string)
    (values : gmap string Js.value) (tailwindConfig : config) :
  isArbitraryValue modifier = false ->
  values !! modifier = None ->
  modifier ∉ Js.objectPrototype ->
  values !! (splitAlpha modifier).1 = None ->
  (splitAlpha modifier).1 ∉ Js.objectPrototype ->
  Forall (fun type => supported dt withAlphaValue type = true) types ->
  coerce types modifier values tailwindConfig = Return Empty.
Proof.
  intros Harb Hkey Hproto Hbase Hbproto Htypes. rewrite coerceValue_plain by assumption.
  pose proof (getProperty_none _ _ Hkey Hproto) as Hget.
  pose proof (getProperty_none _ _ Hbase Hbproto) as Hgetb.
  induction Htypes as [|type types Htype _ IH]; [reflexivity|].
  cbn [firstMatching]. unfold typeMapCall.
  destruct (supported_get dt withAlphaValue type Htype) as [f Hf].
  rewrite Hf, (typeMap_unknown type f modifier values tailwindConfig Hf Harb Hget Hgetb).
  exact IH.
Qed.

Lemma firstMatching_pair (types : list string) (modifier : string)
    (values : gmap string Js.value) (tailwindConfig : config)
    (value : option Js.value) (type : string) :
  matching types modifier values tailwindConfig = Return (Pair value type) ->
  In type types /\ exists result, value = Some result /\ Js.toBoolean result = true.
Proof.
  induction types as [|t types IH]; cbn [firstMatching]; [discriminate|].
  destruct (typeMapCall dt withAlphaValue t modifier values tailwindConfig)
    as [[result|]|]; [| |discriminate].
  - destruct (Js.toBoolean result) eqn:E.
    + intros [= <- <-]. split; [left; reflexivity|]. exists result. auto.
    + intros H. destruct (IH H) as [Hin Hres]. split; [right; exact Hin|exact Hres].
  - intros H. destruct (IH H) as [Hin Hres]. split; [right; exact Hin|exact Hres].
Qed.

(** X10: the kind that comes back from [coerceValue] is one of the kinds
    the caller listed, and then the value is a truthy one, whatever it is,
    a text or not; or the modifier is bracketed and names that kind, a
    supported one, in front of its first colon, with something behind the
    colon. *)
Theorem coerceValue_kind
    (types : list string) (modifier : string)
    (values : gmap string Js.value) (tailwindConfig : config)
    (value : option Js.value) (type : string) :
  coerce types modifier values tailwindConfig = Return (Pair value type) ->
  (In type types /\ exists result, value = Some result /\ Js.toBoolean result = true)
  \/ (supported dt withAlphaValue type = true
      /\ exists rest, rest <> "" /\ modifier = "[" +:+ (type +:+ ":" +:+ rest) +:+ "]").
Proof.
  unfold coerceValue. destruct (isArbitraryValue modifier) eqn:Harb.
  - apply isArbitraryValue_inv in Harb as [x ->]. rewrite slice_brackets.
    destruct (splitAtFirst x ":") as [[explicitType|] rest] eqn:Hsplit.
    + destruct (supported dt withAlphaValue explicitType) eqn:Hsup; cbn [negb];
        [|discriminate].
      destruct (0 <? len rest) eqn:Hlen.
      * intros [= <- <-]. right. split; [exact Hsup|]. exists rest.
        apply splitAtFirst_some in Hsplit as [-> _]. split; [|reflexivity].
        intros ->. discriminate Hlen.
      * intros H. left. exact (firstMatching_pair _ _ _ _ _ _ H).
    + intros H. left. exact (firstMatching_pair _ _ _ _ _ _ H).
  - intros H. left. exact (firstMatching_pair _ _ _ _ _ _ H).
Qed.

Lemma firstMatching_app (types1 types2 : list string) (modifier : string)
    (values : gmap string Js.value) (tailwindConfig : config) :
  matching (types1 ++ types2) modifier values tailwindConfig
  = match matching types1 modifier values tailwindConfig with
    | Return Empty => matching types2 modifier values tailwindConfig
    | other => other
    end.
Proof.
  induction types1 as [|t types1 IH]; [reflexivity|].
  cbn [app firstMatching].
  destruct (typeMapCall dt withAlphaValue t modifier values tailwindConfig)
    as [[result|]|]; [|exact IH|reflexivity].
  destruct (Js.toBoolean result); [reflexivity|exact IH].
Qed.

(** X11: kinds listed behind others are a fallback and nothing more.  What
    a list of kinds resolves to stays when further kinds are put behind it,
    unless it is the empty result, in which case the further kinds alone
    decide. *)
Theorem coerceValue_app
    (types1 types2 : list string) (modifier : string)
    (values : gmap string Js.value) (tailwindConfig : config) :
  coerce (types1 ++ types2) modifier values tailwindConfig
  = match coerce types1 modifier values tailwindConfig with
    | Return Empty => coerce types2 modifier values tailwindConfig
    | other => other
    end.
Proof.
  unfold coerceValue.
  destruct (if isArbitraryValue modifier
            then let '(explicitType, value) := splitAtFirst (slice modifier 1 (-1)) ":" in
                 match explicitType with
                 | Some explicitType =>
                     if negb (supported dt withAlphaValue explicitType) then Some Empty
                     else if 0 <? len value
                          then Some (Pair (asValue dt ("[" +:+ value +:+ "]") values
                                             (validate tailwindConfig)) explicitType)
                          else None
                 | None => None
                 end
            else None) as [[|value type]|].
  - reflexivity.
  - reflexivity.
  - apply firstMatching_app.
Qed.

(** X12: under a kind of [typeMap] that is made by [guess] from a validator,
    a bracketed text without a colon that is no theme key resolves to its
    normalized inside, paired with that kind, when the validator accepts the
    inside (and the normalized text is not empty), and to the empty result
    otherwise. *)
Theorem coerceValue_guess
    (type : string) (validator : string -> bool) (x : string)
    (values : gmap string Js.value) (tailwindConfig : config) :
  In (type, guess dt validator) (typeMap dt withAlphaValue) ->
  occurs ":" x = false ->
  values !! ("[" +:+ x +:+ "]") = None ->
  coerce [type] ("[" +:+ x +:+ "]") values tailwindConfig
  = if validator x && truthy (dataTypes.normalize dt x)
    then Return (Pair (Some (Js.Text (dataTypes.normalize dt x))) type)
    else Return Empty.
Proof.
  intros Hentry Hx Hkey. unfold coerceValue.
  rewrite isArbitraryValue_brackets, slice_brackets, splitAtFirst_absent by assumption.
  cbn [firstMatching]. unfold typeMapCall. rewrite (typeMapGet_entry type _ Hentry).
  unfold guess. rewrite asValue_brackets, Hkey.
  change (default (fun _ => true) (Some validator) x) with (validator x).
  destruct (validator x); [|reflexivity]. cbn [andb Js.toBoolean].
  destruct (truthy (dataTypes.normalize dt x)); reflexivity.
Qed.

(** Every resolver of [typeMap] answers with what the table has under the
    modifier, owned or inherited, before it looks at anything else. *)
Lemma typeMap_defined (type : string) (f : resolver) (modifier : string)
    (values : gmap string Js.value) (tailwindConfig : config) (value : Js.value) :
  typeMapGet (typeMap dt withAlphaValue) type = Some f ->
  Js.getProperty values modifier = Some value ->
  f modifier values tailwindConfig = Some value.
Proof.
  unfold typeMap. cbn [typeMapGet]. intros Hf Hkey.
  repeat case_bool_decide; try discriminate; injection Hf as <-;
    unfold guess, asValue, asColor, asLookupValue; rewrite Hkey; reflexivity.
Qed.

(** X29: a modifier that is the name of a member of [Object.prototype], and
    no key of the theme table, is not unknown to the resolvers: the table
    inherits that member, every resolver of [typeMap] finds it where it
    looks for a theme value, and [coerceValue] hands it back, paired with
    the first kind listed, without validating anything. *)
Theorem coerceValue_inherited_member
    (type : string) (rest : list string) (name : string)
    (values : gmap string Js.value) (tailwindConfig : config) :
  name ∈ Js.objectPrototype ->
  values !! name = None ->
  supported dt withAlphaValue type = true ->
  asValue dt name values None = Some (Js.Ref (Js.Member name))
  /\ coerce (type :: rest) name values tailwindConfig
     = Return (Pair (Some (Js.Ref (Js.Member name))) type).
Proof.
  intros Hname Hown Htype.
  assert (Hget : Js.getProperty values name = Some (Js.Ref (Js.Member name))).
  { unfold Js.getProperty, Js.inherited.
    rewrite Hown, bool_decide_eq_true_2 by assumption. reflexivity. }
  assert (Hplain : isArbitraryValue name = false).
  { unfold Js.objectPrototype in Hname.
    repeat (apply elem_of_cons in Hname as [->|Hname]; [reflexivity|]).
    apply elem_of_nil in Hname. contradiction. }
  split.
  - unfold asValue. rewrite Hget. reflexivity.
  - rewrite coerceValue_plain by assumption. cbn [firstMatching]. unfold typeMapCall.
    destruct (supported_get dt withAlphaValue type Htype) as [f Hf].
    rewrite Hf, (typeMap_defined type f name values tailwindConfig _ Hf Hget).
    reflexivity.
Qed.

End ResolverResults.

(** X8 at [red-500/[0.3]]. *)
Lemma asColor_arbitrary_alpha_witness :
  asColor acceptAll sideBySide ("red-500" +:+ "/" +:+ "[" +:+ "0.3" +:+ "]")
    {[ "red-500" := Js.Text "rgb(239 68 68)" ]} halfOpacity
  = sideBySide (Js.Text "rgb(239 68 68)") (Js.Text "0.3").
Proof.
  apply (asColor_arbitrary_alpha acceptAll sideBySide "red-500" "0.3"
           (Js.Text "rgb(239 68 68)") {[ "red-500" := Js.Text "rgb(239 68 68)" ]}
           halfOpacity).
  - vm_compute. reflexivity.
  - vm_compute. reflexivity.
  - reflexivity.
Defined.

(** X13 at a bracketed color with a slash in it. *)
Lemma asColor_arbitrary_color_witness :
  asColor acceptAll sideBySide ("[" +:+ "rgb(0 0 0 / 50%)" +:+ "]")
    {[ "red-500" := Js.Text "rgb(239 68 68)" ]} halfOpacity
  = Some (Js.Text "rgb(0 0 0 / 50%)").
Proof.
  exact (asColor_arbitrary_color acceptAll sideBySide "rgb(0 0 0 / 50%)"
           {[ "red-500" := Js.Text "rgb(239 68 68)" ]} halfOpacity eq_refl eq_refl).
Defined.

(** X9 at a modifier the theme does not know, under two kinds. *)
Lemma coerceValue_unknown_modifier_witness :
  coerceValue acceptAll sideBySide ["color"; "length"] "not-a-real-key" ∅ halfOpacity
  = Return Empty.
Proof.
  apply (coerceValue_unknown_modifier acceptAll sideBySide ["color"; "length"]
           "not-a-real-key" ∅ halfOpacity).
  - reflexivity.
  - reflexivity.
  - apply (bool_decide_eq_false_1 _). vm_compute. reflexivity.
  - reflexivity.
  - apply (bool_decide_eq_false_1 _). vm_compute. reflexivity.
  - repeat constructor.
Defined.

(** X10 at the theme key [red-500] under the kind [color]. *)
Lemma coerceValue_kind_witness :
  (In "color" ["color"]
   /\ exists result, Some (Js.Text "#ef4444") = Some result /\ Js.toBoolean result = true)
  \/ (supported acceptAll sideBySide "color" = true
      /\ exists rest, rest <> "" /\ "red-500" = "[" +:+ ("color" +:+ ":" +:+ rest) +:+ "]").
Proof.
  apply (coerceValue_kind acceptAll sideBySide ["color"] "red-500"
           {[ "red-500" := Js.Text "#ef4444" ]} halfOpacity (Some (Js.Text "#ef4444"))
           "color").
  vm_compute. reflexivity.
Defined.

(** X29 at the modifier [constructor] under the kind [color]. *)
Lemma coerceValue_inherited_member_witness :
  asValue acceptAll "constructor" ∅ None = Some (Js.Ref (Js.Member "constructor"))
  /\ coerceValue acceptAll sideBySide ("color" :: []) "constructor" ∅ halfOpacity
     = Return (Pair (Some (Js.Ref (Js.Member "constructor"))) "color").
Proof.
  apply (coerceValue_inherited_member acceptAll sideBySide "color" [] "constructor" ∅
           halfOpacity).
  - apply (bool_decide_eq_true_1 _). vm_compute. reflexivity.
  - reflexivity.
  - vm_compute. reflexivity.
Defined.

(** X12 at [[3px]] under the kind [length]. *)
Lemma coerceValue_guess_witness :
  coerceValue acceptAll sideBySide ["length"] ("[" +:+ "3px" +:+ "]") ∅ halfOpacity
  = Return (Pair (Some (Js.Text "3px")) "length").
Proof.
  exact (coerceValue_guess acceptAll sideBySide "length" (dataTypes.length acceptAll) "3px"
           ∅ halfOpacity
           (or_intror (or_intror (or_intror (or_intror (or_introl eq_refl)))))
           eq_refl eq_refl).
Defined.

(** ** More on the rule transforms *)

Section PipelineResults.

Variable isKeyframeRule : parent -> string -> list Css.node -> bool.
Variable transformSelector : string -> option string.

(** X14: without a hook, [transformAllSelectors] changes selectors and
    nothing else.  With a bound that covers the nesting it returns the tree
    in which every rule that is no keyframe rule has the transformed
    selector, at any depth, and every declaration, comment and at-rule is as
    it was, inside the at-rule of [wrap] when there is one. *)
Theorem transformAllSelectors_without_hook
    (fuel : nat) (wrap : option atRule) (container : list Css.node) :
  (depthAll container <= fuel)%nat ->
  transformAllSelectors isKeyframeRule transformSelector None fuel wrap container
  = Some (wrapped wrap
            (map (rewriteRules isKeyframeRule transformSelector ParentRoot) container),
          []).
Proof.
  intros Hfuel. unfold transformAllSelectors, walkRules.
  rewrite (walkEach_map _ (rewriteRules isKeyframeRule transformSelector ParentRoot)).
  - destruct wrap; reflexivity.
  - eapply Forall_impl; [apply depthAll_Forall, Hfuel|].
    intros n Hn. apply walkNode_without_hook, Hn.
Qed.

Lemma walkNodeClasses_without_hook (f : string -> string) (fuel : nat) (n : Css.node) :
  (depth n <= fuel)%nat ->
  walkNodeClasses f None fuel n = Some (mapSelectors f n, []).
Proof.
  revert n. induction fuel as [|fuel IH]; intros [sel ch|nm ps ch|p v|t] Hn;
    try reflexivity; try (simpl in Hn; lia).
  - rewrite depth_rule in Hn. cbn [walkNodeClasses mapSelectors rewriteRuleClasses].
    rewrite (walkEach_map _ (mapSelectors f)); [reflexivity|].
    eapply Forall_impl; [apply (depthAll_Forall ch fuel); lia|]. intros n Hd. apply IH, Hd.
  - rewrite depth_atRule in Hn. cbn [walkNodeClasses mapSelectors].
    rewrite (walkEach_map _ (mapSelectors f)); [reflexivity|].
    eapply Forall_impl; [apply (depthAll_Forall ch fuel); lia|]. intros n Hd. apply IH, Hd.
Qed.

Lemma transformClasses_without_hook (f : string -> string) (fuel : nat)
    (wrap : option atRule) (container : list Css.node) :
  (depthAll container <= fuel)%nat ->
  transformClasses f None fuel wrap container
  = Some (wrapped wrap (map (mapSelectors f) container), []).
Proof.
  intros Hfuel. unfold transformClasses.
  rewrite (walkEach_map _ (mapSelectors f)).
  - destruct wrap; reflexivity.
  - eapply Forall_impl; [apply depthAll_Forall, Hfuel|].
    intros n Hn. apply walkNodeClasses_without_hook, Hn.
Qed.

(** X15: without a hook, [transformAllClasses] and [transformLastClasses]
    rewrite the selector of every rule at every depth as a whole, by
    [updateAllClasses] and [updateLastClasses]: no rule is passed by as a
    keyframe rule and no selector is cut at commas.  Everything else stays,
    and the result sits in the at-rule of [wrap] when there is one. *)
Theorem transformClasses_every_rule
    (A : adapter) (transformClass : string -> updating string)
    (fuel : nat) (wrap : option atRule) (container : list Css.node) :
  (depthAll container <= fuel)%nat ->
  transformAllClasses A transformClass None fuel wrap container
  = Some (wrapped wrap
            (map (mapSelectors (fun selector => updateAllClasses A selector transformClass))
                 container), [])
  /\ transformLastClasses A transformClass None fuel wrap container
     = Some (wrapped wrap
               (map (mapSelectors (fun selector => updateLastClasses A selector transformClass))
                    container), []).
Proof.
  intros Hfuel. unfold transformAllClasses, transformLastClasses.
  split; apply transformClasses_without_hook, Hfuel.
Qed.








End PipelineResults.

(** X14 at a container with a rule and a keyframes at-rule, wrapped. *)
Lemma transformAllSelectors_without_hook_witness :
  transformAllSelectors underKeyframes scoped None 2
    (Some {| name := "media"; params := "print"; nodes := [] |})
    [Rule ".a,.b" [Decl "color" "red"];
     AtRule "keyframes" "spin" [Rule "50%" [Decl "opacity" "0"]]]
  = Some ([AtRule "media" "print"
             [Rule ".dark .a,.dark .b" [Decl "color" "red"];
              AtRule "keyframes" "spin" [Rule "50%" [Decl "opacity" "0"]]]], []).
Proof.
  apply (transformAllSelectors_without_hook underKeyframes scoped 2
           (Some {| name := "media"; params := "print"; nodes := [] |})
           [Rule ".a,.b" [Decl "color" "red"];
            AtRule "keyframes" "spin" [Rule "50%" [Decl "opacity" "0"]]]).
  simpl. lia.
Defined.

(** X15 at a rule under a keyframes at-rule, which is rewritten like any
    other. *)
Lemma transformClasses_every_rule_witness :
  transformAllClasses oneTag (fun className => withPseudo className ":hover") None 2 None
    [AtRule "keyframes" "spin" [Rule "50%" [Decl "opacity" "0"]]]
  = Some (wrapped None
            (map (mapSelectors (fun selector =>
                    updateAllClasses oneTag selector
                      (fun className => withPseudo className ":hover")))
                 [AtRule "keyframes" "spin" [Rule "50%" [Decl "opacity" "0"]]]), [])
  /\ transformLastClasses oneTag (fun className => withPseudo className ":hover") None 2 None
       [AtRule "keyframes" "spin" [Rule "50%" [Decl "opacity" "0"]]]
     = Some (wrapped None
               (map (mapSelectors (fun selector =>
                       updateLastClasses oneTag selector
                         (fun className => withPseudo className ":hover")))
                    [AtRule "keyframes" "spin" [Rule "50%" [Decl "opacity" "0"]]]), []).
Proof.
  apply (transformClasses_every_rule oneTag (fun className => withPseudo className ":hover")
           2 None [AtRule "keyframes" "spin" [Rule "50%" [Decl "opacity" "0"]]]).
  simpl. lia.
Defined.


(** ** More on the class rewriting *)

Section ClassValues.

Variable A : adapter.
Variable updateClass : string -> updating string.

Lemma updateClassNode_values (value : string) (raws : option string) :
  flat_map classValuesNode (updateClassNode A updateClass value raws)
  = [(updateClass value).2].
Proof.
  destruct (updateClassNode_shape A updateClass value raws) as [raws' ->].
  cbn [flat_map classValuesNode app]. f_equal.
  induction (updateClass value).1 as [|p ps IH]; [reflexivity|].
  cbn [map rev]. rewrite flat_map_app, IH. reflexivity.
Qed.

Lemma flat_map_values (f : Selector.node -> list Selector.node) (g : string -> string)
    (sel : selector) :
  Forall (fun n => flat_map classValuesNode (f n) = map g (classValuesNode n)) sel ->
  flat_map classValuesNode (flat_map f sel) = map g (flat_map classValuesNode sel).
Proof.
  induction 1 as [|n sel Hn _ IH]; [reflexivity|].
  cbn [flat_map]. rewrite flat_map_app, map_app, Hn, IH. reflexivity.
Qed.

Lemma walkClassesNode_values (n : Selector.node) :
  flat_map classValuesNode (walkClassesNode A updateClass n)
  = map (fun value => (updateClass value).2) (classValuesNode n).
Proof.
  induction n as [value raws|value sels IH|type text] using node_nested_ind.
  - apply updateClassNode_values.
  - cbn [walkClassesNode flat_map classValuesNode]. rewrite app_nil_r.
    induction IH as [|sel sels Hsel _ IHsels]; [reflexivity|].
    cbn [map flat_map]. rewrite map_app, IHsels. f_equal.
    apply (flat_map_values _ _ sel Hsel).
  - reflexivity.
Qed.

(** X18: [updateAllClasses] renames every class of the selector by the
    callback, those in the arguments of pseudo nodes too, and keeps their
    order: the class names of the result are the callback's answers to the
    class names of the input, one for one. *)
Theorem updateAllClasses_renames_all (selectors : string) :
  updateAllClasses A selectors updateClass
  = toString A (walkClasses A updateClass (parse A selectors))
  /\ classValues (walkClasses A updateClass (parse A selectors))
     = map (fun value => (updateClass value).2) (classValues (parse A selectors)).
Proof.
  split; [reflexivity|]. unfold classValues, walkClasses.
  induction (parse A selectors) as [|sel r IH]; [reflexivity|].
  cbn [map flat_map]. rewrite map_app, IH. f_equal.
  apply flat_map_values, Forall_forall. intros n _. apply walkClassesNode_values.
Qed.

End ClassValues.

(** X19: the class rewrite of a [group-*] variant never renames the marker
    class and puts the variant's name and the separator in front of every
    other class; it asks for no pseudo node.  It is the rewrite
    [groupVariantSelector] runs before it puts the state on the marker. *)
Theorem groupClassName_keeps_marker
    (A : adapter) (groupMarker groupVariantName separator state selector : string) :
  classValues (walkClasses A (groupClassName groupMarker groupVariantName separator)
                 (parse A selector))
  = map (fun className =>
           if bool_decide ("." +:+ className = groupMarker) then className
           else groupVariantName +:+ separator +:+ className)
        (classValues (parse A selector))
  /\ (forall className,
        (groupClassName groupMarker groupVariantName separator className).1 = [])
  /\ groupVariantSelector A groupMarker groupVariantName separator state selector
     = (if bool_decide
             (updateAllClasses A selector
                (groupClassName groupMarker groupVariantName separator) = selector)
        then None
        else Some (applyPseudoToMarker
                     (updateAllClasses A selector
                        (groupClassName groupMarker groupVariantName separator))
                     groupMarker state groupJoin)).
Proof.
  split; [|split].
  - unfold classValues, walkClasses.
    induction (parse A selector) as [|sel r IH]; [reflexivity|].
    cbn [map flat_map]. rewrite map_app, IH. f_equal.
    rewrite (flat_map_values _
               (fun className =>
                  (groupClassName groupMarker groupVariantName separator className).2) sel).
    + apply map_ext. intros className. unfold groupClassName.
      case_bool_decide; reflexivity.
    + apply Forall_forall. intros n _. apply walkClassesNode_values.
  - intros className. unfold groupClassName. case_bool_decide; reflexivity.
  - reflexivity.
Qed.

(** ** More on the states of a marker *)

Section MarkerStates.

Context {R : Type}.

Lemma splitAcc_piece (c : ascii) (a s cur : string) :
  occurs c a = false ->
  splitAcc c (a +:+ String c s) cur = (cur +:+ a) :: splitAcc c s "".
Proof.
  revert cur. induction a as [|d a IH]; intros cur H.
  - change ("" +:+ String c s) with (String c s). cbn [splitAcc].
    rewrite Ascii.eqb_refl, app_empty_r. reflexivity.
  - simpl in H. apply orb_false_iff in H as [Hd Ha]. rewrite app_cons. cbn [splitAcc].
    rewrite Hd, IH by assumption. rewrite app_assoc'. reflexivity.
Qed.

Lemma split_join (states : list string) :
  states <> [] ->
  Forall (fun st => occurs ":" st = false) states ->
  split (JsString.join states ":") ":" = states.
Proof.
  intros Hne Hall. unfold split, JsString.join.
  induction Hall as [|st states Hst Hall IH]; [contradiction|].
  destruct states as [|st' states].
  - cbn [String.concat]. rewrite splitAcc_absent by assumption. reflexivity.
  - change (String.concat ":" (st :: st' :: states))
      with (st +:+ String ":" (String.concat ":" (st' :: states))).
    rewrite splitAcc_piece by assumption. rewrite IH by discriminate. reflexivity.
Qed.

Lemma occurs_join (c : ascii) (states : list string) :
  Ascii.eqb ":" c = false ->
  Forall (fun st => occurs c st = false) states ->
  occurs c (JsString.join states ":") = false.
Proof.
  intros Hc Hall. unfold JsString.join.
  induction Hall as [|st states Hst Hall IH]; [reflexivity|].
  destruct states as [|st' states]; [exact Hst|].
  change (String.concat ":" (st :: st' :: states))
    with (st +:+ String ":" (String.concat ":" (st' :: states))).
  rewrite occurs_app, Hst. cbn [occurs orb]. rewrite Hc, IH. reflexivity.
Qed.

(** A marker that stands first in the selector and carries a text of
    states. *)
Lemma applyPseudoToMarker_carrying
    (marker text new rest : string) (join : string -> string -> R) :
  occurs " " marker = false ->
  occurs " " text = false ->
  applyPseudoToMarker (marker +:+ ":" +:+ text +:+ " " +:+ rest) marker new join
  = join (JsString.join (marker :: new :: split text ":") ":") (" " +:+ rest).
Proof.
  intros Hm Ht. unfold applyPseudoToMarker.
  set (token := (marker +:+ ":") +:+ text).
  assert (Esel : marker +:+ ":" +:+ text +:+ " " +:+ rest = token +:+ " " +:+ rest).
  { unfold token. rewrite !app_assoc'. reflexivity. }
  assert (Esel' : marker +:+ ":" +:+ text +:+ " " +:+ rest
                  = (marker +:+ ":") +:+ text +:+ " " +:+ rest).
  { rewrite !app_assoc'. reflexivity. }
  assert (Hidx : indexOf (marker +:+ ":" +:+ text +:+ " " +:+ rest) (marker +:+ ":") 0 = 0).
  { rewrite Esel'. apply indexOf_head. }
  rewrite Hidx. cbn [negb Z.eqb].
  assert (Hsp : indexOf (marker +:+ ":" +:+ text +:+ " " +:+ rest) " " 0 = len token).
  { rewrite indexOf_zero, Esel. change (" " +:+ rest) with (String " " rest).
    rewrite scan_char_first; [lia|]. unfold token.
    rewrite !occurs_app, Hm, Ht. reflexivity. }
  rewrite Hsp.
  assert (Hex : slice (marker +:+ ":" +:+ text +:+ " " +:+ rest) 0 (len token) = token).
  { rewrite Esel. apply slice_head. reflexivity. }
  rewrite Hex.
  assert (Hst : slice (marker +:+ ":" +:+ text +:+ " " +:+ rest)
                  (0 + len marker + 1) (len token) = text).
  { rewrite Esel'. apply slice_middle.
    - rewrite len_app. reflexivity.
    - unfold token. rewrite len_app. reflexivity. }
  rewrite Hst.
  assert (Hrep : replace (marker +:+ ":" +:+ text +:+ " " +:+ rest) token "" = " " +:+ rest).
  { unfold replace. rewrite Esel, indexOf_head. cbn [Z.eqb].
    rewrite slice_nothing, sliceFrom_tail by reflexivity. reflexivity. }
  rewrite Hrep. reflexivity.
Qed.

(** X20: a marker that stands first in the selector and carries several
    states gets the new state in front of all of them, which stay in their
    order, and [join] gets the rest of the selector from the space behind
    the marker on. *)
Theorem applyPseudoToMarker_several
    (marker new rest : string) (states : list string) (join : string -> string -> R) :
  occurs " " marker = false ->
  states <> [] ->
  Forall (fun st => occurs " " st = false) states ->
  Forall (fun st => occurs ":" st = false) states ->
  applyPseudoToMarker (marker +:+ ":" +:+ JsString.join states ":" +:+ " " +:+ rest)
    marker new join
  = join (JsString.join (marker :: new :: states) ":") (" " +:+ rest).
Proof.
  intros Hm Hne Hsp Hco.
  rewrite applyPseudoToMarker_carrying by (try apply occurs_join; auto).
  rewrite split_join by assumption. reflexivity.
Qed.

End MarkerStates.

Lemma spaces_succ_r (n : nat) : spaces (S n) = " " +:+ spaces n.
Proof. reflexivity. Qed.

(** X21: states put on a marker one after the other, by the [group-*]
    variants on a selector that has no state on the marker yet, end up on
    one marker token in front of the selector, the latest first; and each
    application leaves one more space between that token and the
    selector. *)
Theorem applyPseudoToMarker_stacked (selector marker : string) (states : list string) :
  indexOf selector (marker +:+ ":") 0 = -1 ->
  occurs " " marker = false ->
  Forall (fun st => occurs " " st = false) states ->
  Forall (fun st => occurs ":" st = false) states ->
  states <> [] ->
  fold_left (fun acc st => applyPseudoToMarker acc marker st groupJoin) states selector
  = JsString.join (marker :: rev states) ":" +:+ spaces (List.length states) +:+ selector.
Proof.
  intros Hfresh Hm Hsp Hco Hne. revert Hsp Hco Hne.
  induction states as [|st states IH] using rev_ind; [contradiction|].
  intros Hsp Hco _. apply Forall_app in Hsp as [Hsp Hsp1]. apply Forall_app in Hco as [Hco Hco1].
  rewrite fold_left_app. cbn [fold_left]. rewrite rev_app_distr, length_app.
  cbn [rev app List.length].
  destruct states as [|st0 states].
  - cbn [fold_left rev app List.length Nat.add spaces].
    rewrite (applyPseudoToMarker_fresh _ _ _ _ Hfresh). unfold groupJoin.
    change (JsString.join [marker; st] ":") with (marker +:+ ":" +:+ st).
    rewrite !app_assoc'. reflexivity.
  - rewrite IH by (assumption || discriminate).
    assert (Hrev : rev (st0 :: states) <> []).
    { intros E. apply (f_equal (@List.length string)) in E.
      rewrite length_rev in E. discriminate. }
    assert (Hjoin : JsString.join (marker :: rev (st0 :: states)) ":"
                    = marker +:+ ":" +:+ JsString.join (rev (st0 :: states)) ":").
    { destruct (rev (st0 :: states)); [contradiction|reflexivity]. }
    rewrite Hjoin. replace (List.length (st0 :: states) + 1)%nat
      with (S (List.length (st0 :: states))) by lia.
    cbn [List.length]. rewrite (spaces_succ_r (List.length states)), !app_assoc'.
    rewrite (applyPseudoToMarker_carrying marker (JsString.join (rev (st0 :: states)) ":") st
               (spaces (List.length states) +:+ selector) groupJoin);
      [|assumption|apply occurs_join; [reflexivity|apply Forall_rev; assumption]].
    rewrite split_join by (assumption || apply Forall_rev; assumption).
    unfold groupJoin.
    assert (Hjoin2 : JsString.join (marker :: st :: rev (st0 :: states)) ":"
                     = marker +:+ ":" +:+ st +:+ ":" +:+ JsString.join (rev (st0 :: states)) ":").
    { destruct (rev (st0 :: states)); [contradiction|reflexivity]. }
    rewrite Hjoin2. rewrite !spaces_succ_r, !app_assoc'. reflexivity.
Qed.

(** X20 at a group marker that carries [hover] and [focus]. *)
Lemma applyPseudoToMarker_several_witness :
  applyPseudoToMarker (".group" +:+ ":" +:+ JsString.join ["hover"; "focus"] ":" +:+ " " +:+ ".x")
    ".group" "active" groupJoin
  = groupJoin (JsString.join (".group" :: "active" :: ["hover"; "focus"]) ":") (" " +:+ ".x").
Proof.
  apply (applyPseudoToMarker_several ".group" "active" ".x" ["hover"; "focus"] groupJoin).
  - reflexivity.
  - discriminate.
  - repeat constructor.
  - repeat constructor.
Defined.

(** X21 at three states put on [.group] in front of [.x]. *)
Lemma applyPseudoToMarker_stacked_witness :
  fold_left (fun acc st => applyPseudoToMarker acc ".group" st groupJoin)
    ["hover"; "focus"; "active"] ".x"
  = ".group:active:focus:hover   .x".
Proof.
  apply (applyPseudoToMarker_stacked ".x" ".group" ["hover"; "focus"; "active"]).
  - reflexivity.
  - reflexivity.
  - repeat constructor.
  - repeat constructor.
  - discriminate.
Defined.

(** ** A marker that does not stand first *)

Section MarkerOffset.

Context {R : Type}.

Lemma scan_lower (pat s : string) (i : Z) : scan pat s i = -1 \/ i <= scan pat s i.
Proof.
  revert i. induction s as [|c s IH]; intros i; cbn [scan].
  - destruct (String.prefix pat ""); [right; lia | left; reflexivity].
  - destruct (String.prefix pat (String c s)); [right; lia|].
    destruct (IH (i + 1)) as [->|]; [left; reflexivity | right; lia].
Qed.

(** Where a pattern is first found, a longer pattern that starts with it
    and matches there is first found too. *)
Lemma scan_extend (p x s : string) (i k : Z) :
  scan p s i = k -> k <> -1 ->
  String.prefix (p +:+ x) (drop (Z.to_nat (k - i)) s) = true ->
  scan (p +:+ x) s i = k.
Proof.
  revert i. induction s as [|c s IH]; intros i; cbn [scan].
  - destruct (String.prefix p "") eqn:E.
    + intros <- _. replace (Z.to_nat (i - i)) with O by lia. cbn [drop].
      intros ->. reflexivity.
    + intros <-. contradiction.
  - destruct (String.prefix p (String c s)) eqn:E.
    + intros <- _. replace (Z.to_nat (i - i)) with O by lia. cbn [drop].
      intros ->. reflexivity.
    + intros Hk Hne Hpre.
      destruct (String.prefix (p +:+ x) (String c s)) eqn:E'.
      { apply prefix_shorter in E'. congruence. }
      destruct (scan_lower p s (i + 1)) as [Hn|Hl]; [congruence|].
      apply IH; [exact Hk|exact Hne|].
      replace (Z.to_nat (k - i)) with (S (Z.to_nat (k - (i + 1)))) in Hpre by lia.
      exact Hpre.
Qed.

Lemma substring_app_short (b c : string) (n : nat) :
  (n <= String.length b)%nat -> String.substring 0 n (b +:+ c) = String.substring 0 n b.
Proof.
  revert n. induction b as [|d b IH]; intros [|n] H.
  - apply substring_nothing.
  - simpl in H. lia.
  - reflexivity.
  - rewrite app_cons. cbn [String.substring]. rewrite IH by (simpl in H; lia). reflexivity.
Qed.

Lemma slice_from_part (a b c : string) (i e : Z) :
  i = len a -> 0 <= e <= len a + len b ->
  slice (a +:+ b +:+ c) i e = String.substring 0 (Z.to_nat (e - len a)) b.
Proof.
  intros -> He. unfold slice, clampIndex. rewrite !len_app.
  pose proof (len_nonneg a). pose proof (len_nonneg b). pose proof (len_nonneg c).
  destruct (len a <? 0) eqn:E1; [lia|]. destruct (e <? 0) eqn:E2; [lia|].
  rewrite !Z.min_l by lia.
  replace (Z.to_nat (len a)) with (String.length a + 0)%nat by (unfold len; lia).
  rewrite substring_app_skip. apply substring_app_short. unfold len in *. lia.
Qed.

Lemma indexOf_from (a t pat : string) :
  indexOf (a +:+ t) pat (len a) = scan pat t (len a).
Proof.
  unfold indexOf. pose proof (len_nonneg a). pose proof (len_nonneg t).
  rewrite len_app, Z.max_l, Z.min_l by lia.
  replace (Z.to_nat (len a)) with (String.length a) by (unfold len; lia).
  rewrite drop_app_length. reflexivity.
Qed.

(** X22: when the marker with its state does not stand first in the
    selector but behind a text [pre], the state it carries is read from the
    wrong place: of the state only the first characters are kept, as many as
    it is longer than [pre], and none when it is not longer.  The marker
    token is still taken out of the selector, and the new state is still put
    in front. *)
Theorem applyPseudoToMarker_marker_not_first
    (pre marker s1 new rest : string) (join : string -> string -> R) :
  indexOf (pre +:+ marker +:+ ":" +:+ s1 +:+ " " +:+ rest) (marker +:+ ":") 0 = len pre ->
  occurs " " marker = false ->
  occurs " " s1 = false ->
  occurs ":" s1 = false ->
  applyPseudoToMarker (pre +:+ marker +:+ ":" +:+ s1 +:+ " " +:+ rest) marker new join
  = join (marker +:+ ":" +:+ new +:+ ":"
          +:+ String.substring 0 (String.length s1 - String.length pre) s1)
         (pre +:+ " " +:+ rest).
Proof.
  intros Hfirst Hm Hs Hc. unfold applyPseudoToMarker.
  set (token := (marker +:+ ":") +:+ s1).
  set (selector := pre +:+ marker +:+ ":" +:+ s1 +:+ " " +:+ rest) in *.
  assert (E1 : selector = pre +:+ token +:+ " " +:+ rest).
  { unfold selector, token. rewrite !app_assoc'. reflexivity. }
  assert (E2 : selector = (pre +:+ marker +:+ ":") +:+ s1 +:+ " " +:+ rest).
  { unfold selector. rewrite !app_assoc'. reflexivity. }
  assert (E3 : selector = (pre +:+ token) +:+ " " +:+ rest).
  { rewrite E1, !app_assoc'. reflexivity. }
  pose proof (len_nonneg pre) as Hpre. pose proof (len_nonneg s1) as Hs1.
  pose proof (len_nonneg marker) as Hmk.
  assert (Htok : len token = len marker + 1 + len s1).
  { unfold token. rewrite !len_app. change (len ":") with 1. lia. }
  rewrite Hfirst.
  destruct (len pre =? -1) eqn:Eneg; [lia|]. cbn [negb].
  assert (Hsp : indexOf selector " " (len pre) = len pre + len token).
  { rewrite E1, indexOf_from. change (" " +:+ rest) with (String " " rest).
    apply scan_char_first. unfold token. rewrite !occurs_app, Hm, Hs. reflexivity. }
  rewrite Hsp.
  assert (Hex : slice selector (len pre) (len pre + len token) = token).
  { rewrite E1. apply slice_middle; reflexivity. }
  rewrite Hex.
  assert (Hst : slice selector (len pre + len marker + 1) (len token)
                = String.substring 0 (String.length s1 - String.length pre) s1).
  { rewrite E2, (slice_from_part (pre +:+ marker +:+ ":") s1 (" " +:+ rest)).
    - f_equal. rewrite !len_app. change (len ":") with 1. unfold len in *. lia.
    - rewrite !len_app. change (len ":") with 1. lia.
    - rewrite !len_app. change (len ":") with 1. lia. }
  rewrite Hst. unfold split.
  rewrite splitAcc_absent by (apply occurs_substring, Hc).
  assert (Hrep : replace selector token "" = pre +:+ " " +:+ rest).
  { unfold replace.
    assert (Hidx : indexOf selector token 0 = len pre).
    { rewrite indexOf_zero. unfold token. apply scan_extend.
      - rewrite <- indexOf_zero. exact Hfirst.
      - lia.
      - replace (Z.to_nat (len pre - 0)) with (String.length pre) by (unfold len; lia).
        rewrite E1, drop_app_length. apply prefix_app_same. }
    rewrite Hidx, Eneg. rewrite E1 at 1. rewrite slice_head by reflexivity.
    rewrite E3, sliceFrom_tail by (rewrite len_app; reflexivity). reflexivity. }
  rewrite Hrep. reflexivity.
Qed.

End MarkerOffset.

(** X22 at a group marker with [hover] behind the class of a dark variant:
    the state [hover] is lost. *)
Lemma applyPseudoToMarker_marker_not_first_witness :
  applyPseudoToMarker (".dark " +:+ ".group" +:+ ":" +:+ "hover" +:+ " " +:+ ".x")
    ".group" "focus" groupJoin
  = ".group:focus: .dark  .x".
Proof.
  apply (applyPseudoToMarker_marker_not_first ".dark " ".group" "hover" "focus" ".x" groupJoin).
  - reflexivity.
  - reflexivity.
  - reflexivity.
  - reflexivity.
Defined.

(** ** A marker with nothing behind it *)

Section MarkerLast.

Context {R : Type}.

Lemma slice_all_but_last (a : string) (c : ascii) : slice (a +:+ String c "") 0 (-1) = a.
Proof.
  unfold slice, clampIndex. rewrite len_app. pose proof (len_nonneg a).
  change (len (String c "")) with 1.
  replace (0 <? 0) with false by reflexivity. replace (-1 <? 0) with true by reflexivity.
  rewrite Z.min_l, Z.max_l by lia.
  replace (Z.to_nat (len a + 1 + -1 - 0)) with (String.length a) by (unfold len; lia).
  apply substring_app_head.
Qed.

(** X23: when the marker with its state is the whole selector, so that no
    space follows, the end of the marker token is taken to be one character
    before the end: the last character of the state is cut off the state
    and is what is left of the selector. *)
Theorem applyPseudoToMarker_marker_alone
    (marker s1 new : string) (c : ascii) (join : string -> string -> R) :
  occurs " " marker = false ->
  occurs " " (s1 +:+ String c "") = false ->
  occurs ":" s1 = false ->
  applyPseudoToMarker (marker +:+ ":" +:+ s1 +:+ String c "") marker new join
  = join (marker +:+ ":" +:+ new +:+ ":" +:+ s1) (String c "").
Proof.
  intros Hm Hs Hc. unfold applyPseudoToMarker.
  set (token := (marker +:+ ":") +:+ s1).
  assert (Esel : marker +:+ ":" +:+ s1 +:+ String c "" = token +:+ String c "").
  { unfold token. rewrite !app_assoc'. reflexivity. }
  assert (Esel' : marker +:+ ":" +:+ s1 +:+ String c ""
                  = (marker +:+ ":") +:+ s1 +:+ String c "").
  { rewrite !app_assoc'. reflexivity. }
  assert (Hidx : indexOf (marker +:+ ":" +:+ s1 +:+ String c "") (marker +:+ ":") 0 = 0).
  { rewrite Esel'. apply indexOf_head. }
  rewrite Hidx. cbn [negb Z.eqb].
  assert (Hsp : indexOf (marker +:+ ":" +:+ s1 +:+ String c "") " " 0 = -1).
  { rewrite indexOf_zero. apply scan_char_absent.
    rewrite !occurs_app, Hm. rewrite occurs_app in Hs. rewrite Hs. reflexivity. }
  rewrite Hsp.
  assert (Hex : slice (marker +:+ ":" +:+ s1 +:+ String c "") 0 (-1) = token).
  { rewrite Esel. apply slice_all_but_last. }
  rewrite Hex.
  assert (Hst : slice (marker +:+ ":" +:+ s1 +:+ String c "")
                  (0 + len marker + 1) (len token) = s1).
  { rewrite Esel'. apply slice_middle.
    - rewrite len_app. reflexivity.
    - unfold token. rewrite len_app. reflexivity. }
  rewrite Hst. unfold split. rewrite splitAcc_absent by assumption.
  assert (Hrep : replace (marker +:+ ":" +:+ s1 +:+ String c "") token "" = String c "").
  { unfold replace. rewrite Esel, indexOf_head. cbn [Z.eqb].
    rewrite slice_nothing, sliceFrom_tail by reflexivity. reflexivity. }
  rewrite Hrep. reflexivity.
Qed.

End MarkerLast.

(** X23 at the selector [.group:hover]. *)
Lemma applyPseudoToMarker_marker_alone_witness :
  applyPseudoToMarker (".group" +:+ ":" +:+ "hove" +:+ String "r" "") ".group" "focus" groupJoin
  = ".group:focus:hove r".
Proof.
  apply (applyPseudoToMarker_marker_alone ".group" "hove" "focus" "r" groupJoin);
    reflexivity.
Defined.

(** ** The paddings of the container *)

Section ContainerPaddings.
Import Container.



Variable paddings : gmap string jsval.

(** The inner loop of [mapMinWidthsToPadding] for one width. *)
Local Abbreviation matching screens width :=
  (omap (fun '(screen, value) =>
           if bool_decide (toText (screenMinWidth value) = toText width)
           then Some {| screenName := screen; minWidth := width;
                        padding := get paddings screen |}
           else None) screens).








(** X26: when [paddings.DEFAULT] is truthy, the padding generated at width
    [0], the one of the unconditional [.container] rule, is
    [paddings.DEFAULT], whatever the widths and the screens. *)
Theorem generatePaddingFor_default
    (minWidths : list jsval) (screens : option (list (string * screen)))
    (mapping : list entry) :
  truthyValue (get paddings "DEFAULT") = true ->
  mapMinWidthsToPadding minWidths screens (Object paddings) = Return mapping ->
  generatePaddingFor mapping (JNumber 0) = Some (get paddings "DEFAULT").
Proof.
  intros Hd. unfold mapMinWidthsToPadding, defaultEntry. rewrite Hd.
  intros Hm.
  assert (exists rest,
             mapping = {| screenName := "DEFAULT"; minWidth := JNumber 0;
                          padding := get paddings "DEFAULT" |} :: rest) as [rest ->].
  { destruct minWidths as [|m ms], screens as [sc|]; try discriminate;
      injection Hm as <-; eexists; reflexivity. }
  reflexivity.
Qed.

(** X27: a screen that has both a truthy [min] and a [min-width] that is
    neither null nor undefined, of different texts, contributes its
    [min-width] to the widths but is looked up by its [min]: when it is the
    only screen it gets no entry in the paddings. *)
Theorem mapMinWidthsToPadding_min_and_min_width
    (name : string) (o : gmap string jsval) (a b : jsval) :
  o !! "min" = Some a ->
  o !! "min-width" = Some b ->
  truthyValue a = true ->
  nullish b = false ->
  toText a <> toText b ->
  extractMinWidths (Some [(name, Single (Object o))]) = [b]
  /\ mapMinWidthsToPadding (extractMinWidths (Some [(name, Single (Object o))]))
       (Some [(name, Single (Object o))]) (Object paddings)
     = Return (defaultEntry paddings).
Proof.
  intros Ha Hb Ht Hn Hne.
  assert (E : extractMinWidths (Some [(name, Single (Object o))]) = [b]).
  { unfold extractMinWidths. cbn [default from_option id flat_map omap list_omap minWidthOf].
    unfold hasOwnProperty, get. rewrite Ha, Hb. cbn [default from_option id].
    rewrite bool_decide_eq_true_2 by eauto. cbn [orb]. rewrite Hn. reflexivity. }
  split; [exact E|]. rewrite E.
  unfold mapMinWidthsToPadding. cbn [default from_option id flat_map omap list_omap screenMinWidth].
  assert (Hg : get o "min" = a) by (unfold get; rewrite Ha; reflexivity).
  rewrite Hg, Ht.
  rewrite bool_decide_eq_false_2 by exact Hne.
  cbn [app]. rewrite app_nil_r. reflexivity.
Qed.

End ContainerPaddings.

(** X28: with the widths extracted from the very screens it is given, as
    the plugin calls it, [mapMinWidthsToPadding] never throws, also when
    the theme has no screens. *)
Theorem container_paddings_never_throw
    (screens : option (list (string * Container.screen))) (paddings : Container.item) :
  exists mapping,
    Container.mapMinWidthsToPadding (Container.extractMinWidths screens) screens paddings
    = Return mapping.
Proof.
  unfold Container.mapMinWidthsToPadding.
  destruct paddings as [[| | |]|o]; try (eexists; reflexivity).
  destruct screens as [sc|]; [|eexists; reflexivity].
  destruct (Container.extractMinWidths (Some sc)); eexists; reflexivity.
Qed.



(** X26 at the paddings [{ DEFAULT: 1rem }] of a theme without screens. *)
Lemma generatePaddingFor_default_witness :
  Container.generatePaddingFor
    [{| Container.screenName := "DEFAULT"; Container.minWidth := Container.JNumber 0;
        Container.padding := Container.JString "1rem" |}]
    (Container.JNumber 0)
  = Some (Container.JString "1rem").
Proof.
  exact (generatePaddingFor_default {[ "DEFAULT" := Container.JString "1rem" ]}
           [] None _ eq_refl eq_refl).
Defined.

(** X27 at the screen [{ min: 640px, min-width: 700px }]. *)
Lemma mapMinWidthsToPadding_min_and_min_width_witness :
  Container.extractMinWidths
    (Some [("sm", Container.Single (Container.Object
                    {[ "min" := Container.JString "640px";
                       "min-width" := Container.JString "700px" ]}))])
  = [Container.JString "700px"]
  /\ Container.mapMinWidthsToPadding
       (Container.extractMinWidths
          (Some [("sm", Container.Single (Container.Object
                          {[ "min" := Container.JString "640px";
                             "min-width" := Container.JString "700px" ]}))]))
       (Some [("sm", Container.Single (Container.Object
                       {[ "min" := Container.JString "640px";
                          "min-width" := Container.JString "700px" ]}))])
       (Container.Object {[ "sm" := Container.JString "2rem" ]})
     = Return (Container.defaultEntry {[ "sm" := Container.JString "2rem" ]}).
Proof.
  apply (mapMinWidthsToPadding_min_and_min_width
           {[ "sm" := Container.JString "2rem" ]} "sm"
           {[ "min" := Container.JString "640px";
              "min-width" := Container.JString "700px" ]}
           (Container.JString "640px") (Container.JString "700px"));
    try reflexivity.
  discriminate.
Defined.
